(** * Symbol index of the code-navigation service (src-tauri/src/code_navigation.rs)

    Shallow embedding of [CodeNavigationService]: the symbol index with its
    reverse index, the definition indexer, the batch indexer, the reference
    validator of the hybrid search and the persistence commands.

    The tree-sitter library, serde_json, ripgrep and the file system are
    external collaborators.  They appear as two type classes, [TreeSitter]
    and [Host], taken as section contexts, so that every theorem holds for
    every behaviour of them; parse trees are plain inductive values the
    validator walks. *)

From Stdlib Require Import NArith Ascii.
From stdpp Require Import base gmap strings list.

(** ** Values shared with tree-sitter *)

(** [tree_sitter::Point]: zero-based row and byte column. *)
Record Point := mkPoint { row : N; column : N }.

(** [Point] ordering as tree-sitter compares them (row first). *)
Definition point_lt (a b : Point) : bool :=
  (row a <? row b)%N || ((row a =? row b)%N && (column a <? column b)%N).
Definition point_lte (a b : Point) : bool :=
  (row a <? row b)%N || ((row a =? row b)%N && (column a <=? column b)%N).

(** One capture of a query match: the captured node's text
    ([node.utf8_text], which may fail), the capture tag and the node's
    start and end points. *)
Record Capture := mkCapture {
  cap_text : option string;
  capture_name : string;
  cap_start : Point;
  cap_end : Point
}.

(** The grammars linked into the binary ([tree_sitter_python::LANGUAGE], ...). *)
Inductive TsGrammar := TsPython | TsRust | TsGo | TsC | TsCpp | TsJava | TsTsx.

(** ** Data model *)

Record SymbolInfo := mkSymbolInfo {
  name : string;
  kind : string;
  file_path : string;
  lang_family : string;
  start_line : N;
  start_column : N;
  end_line : N;
  end_column : N
}.

Record SymbolIndex := mkSymbolIndex {
  definitions : gmap string (list SymbolInfo);
  (* Reverse index: file_path -> symbol names (for fast clear_file) *)
  file_definitions : gmap string (gset string)
}.

Definition SymbolIndex_default : SymbolIndex := mkSymbolIndex ∅ ∅.

(** [x as u32] for a [usize] value. *)
Definition as_u32 (n : N) : N := (n mod 4294967296)%N.

(** [str::contains] on a pattern string. *)
Fixpoint str_contains (hay needle : string) : bool :=
  String.prefix needle hay ||
  match hay with
  | EmptyString => false
  | String _ rest => str_contains rest needle
  end.

Definition get_symbol_kind (capture_name : string) : string :=
  if str_contains capture_name "function" then "function"
  else if str_contains capture_name "class" then "class"
  else if str_contains capture_name "struct" then "struct"
  else if str_contains capture_name "enum" then "enum"
  else if str_contains capture_name "trait" then "trait"
  else if str_contains capture_name "interface" then "interface"
  else if str_contains capture_name "method" then "method"
  else if str_contains capture_name "type" then "type"
  else if str_contains capture_name "const" then "const"
  else if str_contains capture_name "static" then "static"
  else "symbol".

(** Language family for language isolation: C/C++ share references,
    TypeScript/JavaScript share references, other languages are isolated. *)
Definition get_lang_family (lang_id : string) : string :=
  if String.eqb lang_id "c" || String.eqb lang_id "cpp" then "c_family"
  else if String.eqb lang_id "typescript" || String.eqb lang_id "javascript" then "js_family"
  else if String.eqb lang_id "python" then "python"
  else if String.eqb lang_id "rust" then "rust"
  else if String.eqb lang_id "go" then "go"
  else if String.eqb lang_id "java" then "java"
  else "unknown".

(** The [match lang_id.as_str()] choosing a grammar in the batch indexer and
    in the hybrid search. *)
Definition language_for_id (lang_id : string) : option TsGrammar :=
  if String.eqb lang_id "python" then Some TsPython
  else if String.eqb lang_id "rust" then Some TsRust
  else if String.eqb lang_id "go" then Some TsGo
  else if String.eqb lang_id "c" then Some TsC
  else if String.eqb lang_id "cpp" then Some TsCpp
  else if String.eqb lang_id "java" then Some TsJava
  else if String.eqb lang_id "typescript" || String.eqb lang_id "javascript" then Some TsTsx
  else None.

Definition get_definition_query (lang_id : string) : string :=
  if String.eqb lang_id "python" then
    "(function_definition name: (identifier) @function.definition) (class_definition name: (identifier) @class.definition)"
  else if String.eqb lang_id "rust" then
    "(function_item name: (identifier) @function.definition) (struct_item name: (type_identifier) @struct.definition) (enum_item name: (type_identifier) @enum.definition) (trait_item name: (type_identifier) @trait.definition) (const_item name: (identifier) @const.definition) (static_item name: (identifier) @static.definition) (type_item name: (type_identifier) @type.definition)"
  else if String.eqb lang_id "go" then
    "(function_declaration name: (identifier) @function.definition) (method_declaration name: (field_identifier) @method.definition) (type_declaration (type_spec name: (type_identifier) @type.definition))"
  else if String.eqb lang_id "c" then
    "(function_definition declarator: (function_declarator declarator: (identifier) @function.definition)) (struct_specifier name: (type_identifier) @struct.definition)"
  else if String.eqb lang_id "cpp" then
    "(function_definition declarator: (function_declarator declarator: (identifier) @function.definition)) (function_definition declarator: (function_declarator declarator: (qualified_identifier name: (identifier) @function.definition))) (struct_specifier name: (type_identifier) @struct.definition) (class_specifier name: (type_identifier) @class.definition)"
  else if String.eqb lang_id "java" then
    "(method_declaration name: (identifier) @method.definition) (class_declaration name: (identifier) @class.definition) (interface_declaration name: (identifier) @interface.definition)"
  else if String.eqb lang_id "typescript" || String.eqb lang_id "javascript" then
    "(function_declaration name: (identifier) @function.definition) (export_statement (function_declaration name: (identifier) @function.definition)) (class_declaration name: (type_identifier) @class.definition) (export_statement (class_declaration name: (type_identifier) @class.definition)) (interface_declaration name: (type_identifier) @interface.definition) (export_statement (interface_declaration name: (type_identifier) @interface.definition)) (type_alias_declaration name: (type_identifier) @type.definition) (export_statement (type_alias_declaration name: (type_identifier) @type.definition)) (enum_declaration name: (identifier) @enum.definition) (export_statement (enum_declaration name: (identifier) @enum.definition)) (method_definition name: (property_identifier) @method.definition) (program (lexical_declaration (variable_declarator name: (identifier) @const.definition))) (program (export_statement (lexical_declaration (variable_declarator name: (identifier) @const.definition))))"
  else "".

(** ** Symbol index operations *)

(** [symbols.retain(|s| s.file_path != file_path)] followed by removing the
    entry when it became empty, for one name. *)
Definition clear_name (file_path0 : string)
    (defs : gmap string (list SymbolInfo)) (nm : string) : gmap string (list SymbolInfo) :=
  match defs !! nm with
  | None => defs
  | Some symbols =>
      let symbols' := filter (λ s, file_path s ≠ file_path0) symbols in
      match symbols' with
      | [] => delete nm defs
      | _ => <[nm := symbols']> defs
      end
  end.

(** [clear_file]: use the reverse index, visiting only the names of the file. *)
Definition clear_file_ix (ix : SymbolIndex) (file_path0 : string) : SymbolIndex :=
  match file_definitions ix !! file_path0 with
  | None => ix
  | Some def_names =>
      mkSymbolIndex
        (set_fold (λ nm defs, clear_name file_path0 defs nm) (definitions ix) def_names)
        (delete file_path0 (file_definitions ix))
  end.

Definition clear_all_ix (ix : SymbolIndex) : SymbolIndex :=
  mkSymbolIndex ∅ ∅.

(** [definitions.entry(symbol.name.clone()).or_default().push(symbol)] *)
Definition push_symbol (defs : gmap string (list SymbolInfo)) (symbol : SymbolInfo)
    : gmap string (list SymbolInfo) :=
  <[name symbol := default [] (defs !! name symbol) ++ [symbol]]> defs.

(** The insertion block shared verbatim by [index_file] and the merge phase of
    [code_nav_index_files_batch]: the reverse index entry is written only for
    a non-empty name set, then every record is pushed. *)
Definition add_file_defs (ix : SymbolIndex) (file_path0 : string)
    (defs : list SymbolInfo) (defined_names : gset string) : SymbolIndex :=
  mkSymbolIndex
    (foldl push_symbol (definitions ix) defs)
    (if decide (defined_names = ∅) then file_definitions ix
     else <[file_path0 := defined_names]> (file_definitions ix)).

Definition find_definition_ix (ix : SymbolIndex) (symbol_name lang_family0 : string)
    : list SymbolInfo :=
  match definitions ix !! symbol_name with
  | Some symbols => filter (λ s, lang_family s = lang_family0) symbols
  | None => []
  end.

(** A syntax node as the validator sees it: kind, byte range, point range and
    children, each with its field name ([None] for a child without field).
    A node handle ([tree_sitter::Node]) is the path of child indices from
    the root; two handles have the same [id()] exactly when the paths agree. *)
Set Warnings "-register-all".
Inductive Node :=
  mkNode (node_kind : string) (start_byte end_byte : N)
         (start_position end_position : Point)
         (children : list (option string * Node)).

Definition node_kind (n : Node) : string := let 'mkNode k _ _ _ _ _ := n in k.
Definition start_byte (n : Node) : N := let 'mkNode _ b _ _ _ _ := n in b.
Definition end_byte (n : Node) : N := let 'mkNode _ _ b _ _ _ := n in b.
Definition start_position (n : Node) : Point := let 'mkNode _ _ _ p _ _ := n in p.
Definition end_position (n : Node) : Point := let 'mkNode _ _ _ _ p _ := n in p.
Definition children (n : Node) : list (option string * Node) :=
  let 'mkNode _ _ _ _ _ cs := n in cs.

(** ** Reference validation on a syntax tree *)

Definition node_at_opt (o : option Node) (i : nat) : option Node :=
  match o with
  | Some n => match children n !! i with Some (_, c) => Some c | None => None end
  | None => None
  end.

(** The node a handle designates. *)
Definition node_at (root : Node) (p : list nat) : option Node :=
  foldl node_at_opt (Some root) p.

(** [node.parent()] *)
Definition parent (p : list nat) : option (list nat) :=
  match p with [] => None | _ => Some (removelast p) end.

(** [p.child_by_field_name(field)]: the first child carrying that field. *)
Definition child_by_field_name (root : Node) (p : list nat) (field : string)
    : option (list nat) :=
  n ← node_at root p;
  i ← list_find (λ fc, fc.1 = Some field) (children n);
  Some (p ++ [i.1]).

(** [p.child(i)] *)
Definition child (root : Node) (p : list nat) (i : nat) : option (list nat) :=
  n ← node_at root p;
  _ ← children n !! i;
  Some (p ++ [i]).

(** The kinds met by [let mut parent = node.parent(); while let Some(p) = parent
    { ...; parent = p.parent(); }], i.e. of all proper ancestors. *)
Fixpoint ancestor_kinds (n : Node) (p : list nat) : list string :=
  match p with
  | [] => []
  | i :: p' =>
      node_kind n ::
        match children n !! i with
        | Some (_, c) => ancestor_kinds c p'
        | None => []
        end
  end.

(** [node.utf8_text(source)]: the bytes of the node's range.  The source is
    a Rust [str], one [ascii] per byte; decoding is not modelled. *)
Definition utf8_text (n : Node) (source : string) : string :=
  String.substring (N.to_nat (start_byte n)) (N.to_nat (end_byte n - start_byte n)) source.

(** [tree.root_node().descendant_for_point_range(point, point)], following
    tree-sitter's [ts_node__descendant_for_point_range]: descend into the
    first child that ends after the range start and at or after the range
    end, unless it starts after the range start. *)
Fixpoint descendant_for_point_range (n : Node) (range_start range_end : Point)
    {struct n} : list nat :=
  match n with
  | mkNode _ _ _ _ _ cs =>
      (fix scan (cs : list (option string * Node)) (i : nat) {struct cs} : list nat :=
         match cs with
         | [] => []
         | (_, c) :: rest =>
             if point_lt (end_position c) range_end then scan rest (S i)
             else if point_lte (end_position c) range_start then scan rest (S i)
             else if point_lt range_start (start_position c) then []
             else i :: descendant_for_point_range c range_start range_end
         end) cs 0
  end.

Definition is_string_kind (k : string) : bool :=
  String.eqb k "string" || String.eqb k "template_string" || String.eqb k "string_literal"
  || String.eqb k "string_content" || String.eqb k "interpreted_string_literal"
  || String.eqb k "raw_string_literal".

Definition is_comment_kind (k : string) : bool :=
  String.eqb k "comment" || String.eqb k "line_comment" || String.eqb k "block_comment".

Definition valid_kinds (lang_id : string) : list string :=
  if String.eqb lang_id "typescript" || String.eqb lang_id "javascript" then
    ["identifier"; "type_identifier"; "property_identifier"]
  else if String.eqb lang_id "go" then ["identifier"; "type_identifier"; "field_identifier"]
  else ["identifier"; "type_identifier"].

(** [field.id() == node.id()] for [p.child_by_field_name(field)]. *)
Definition field_is (root : Node) (pp : list nat) (field : string) (p : list nat) : bool :=
  bool_decide (child_by_field_name root pp field = Some p).

Definition is_valid_reference_node (root : Node) (p : list nat) (symbol_name : string)
    (source : string) (lang_id : string) : bool :=
  match node_at root p with
  | None => false
  | Some node =>
  (* 1. Node text must exactly match the symbol name *)
  if negb (String.eqb (utf8_text node source) symbol_name) then false
  (* 2. Must be an identifier or type_identifier *)
  else if negb (existsb (String.eqb (node_kind node)) (valid_kinds lang_id)) then false
  (* 3. Exclude if inside string or comment *)
  else if existsb (λ k, is_string_kind k || is_comment_kind k) (ancestor_kinds root p) then false
  else
  match parent p with
  | None => true
  | Some pp =>
    let parent_kind := default "" (node_kind <$> node_at root pp) in
    (* 4. Exclude property access property name *)
    if String.eqb parent_kind "member_expression" && field_is root pp "property" p then false
    else if String.eqb parent_kind "attribute" && String.eqb lang_id "python"
            && field_is root pp "attribute" p then false
    else if String.eqb parent_kind "field_expression" && String.eqb lang_id "rust"
            && field_is root pp "field" p then false
    else if String.eqb parent_kind "selector_expression" && String.eqb lang_id "go"
            && field_is root pp "field" p then false
    else if String.eqb parent_kind "field_access" && field_is root pp "field" p then false
    (* 5. Exclude object literal keys *)
    else if String.eqb parent_kind "pair" && field_is root pp "key" p then false
    else if String.eqb parent_kind "shorthand_property_identifier" then false
    else if String.eqb parent_kind "pair" && String.eqb lang_id "python"
            && field_is root pp "key" p then false
    else if String.eqb parent_kind "keyed_element" && String.eqb lang_id "go"
            && bool_decide (child root pp 0 = Some p) then false
    else if String.eqb parent_kind "field_initializer" && String.eqb lang_id "rust"
            && field_is root pp "name" p then false
    (* 6. Exclude import specifier names *)
    else if String.eqb parent_kind "import_specifier" && field_is root pp "name" p then false
    else true
  end
  end.

Definition is_newline (b : ascii) : bool := Ascii.eqb b "010"%char.

(** The loop computing [line_start]: it stays 0 when the line is not found. *)
Fixpoint find_line_start (bytes : list ascii) (i current_line line_idx : N) : N :=
  match bytes with
  | [] => 0
  | b :: rest =>
      if (current_line =? line_idx)%N then i
      else find_line_start rest (i + 1) (if is_newline b then current_line + 1 else current_line)%N line_idx
  end.

(** [str::match_indices]: left to right, non-overlapping; an empty pattern
    matches at every position. *)
Fixpoint match_indices_fuel (fuel : nat) (s pat : string) (i : nat) : list nat :=
  match fuel with
  | 0 => []
  | S fuel' =>
      if String.prefix pat s then
        match pat with
        | EmptyString =>
            i :: match s with
                 | EmptyString => []
                 | String _ r => match_indices_fuel fuel' r pat (S i)
                 end
        | _ => i :: match_indices_fuel fuel'
                      (String.substring (String.length pat) (String.length s - String.length pat) s)
                      pat (i + String.length pat)
        end
      else
        match s with
        | EmptyString => []
        | String _ r => match_indices_fuel fuel' r pat (S i)
        end
  end.

Definition match_indices (s pat : string) : list nat :=
  match_indices_fuel (S (String.length s)) s pat 0.

Definition is_ascii_alphanumeric (c : ascii) : bool :=
  let n := nat_of_ascii c in
  ((48 <=? n) && (n <=? 57)) || ((65 <=? n) && (n <=? 90)) || ((97 <=? n) && (n <=? 122)).

Definition is_word_byte (c : ascii) : bool :=
  is_ascii_alphanumeric c || Ascii.eqb c "_"%char.

Definition validate_reference_at_line (root : Node) (source : string) (line_number : N)
    (symbol_name lang_id file_path0 lang_family0 : string) : list SymbolInfo :=
  let line_idx := (line_number - 1)%N in
  let bytes := String.list_ascii_of_string source in
  let line_start := find_line_start bytes 0 0 line_idx in
  let rest := drop (N.to_nat line_start) bytes in
  let line_end := match list_find is_newline rest with
                  | Some (pos, _) => N.to_nat line_start + pos
                  | None => length bytes
                  end in
  let line_content := String.substring (N.to_nat line_start) (line_end - N.to_nat line_start) source in
  let lb := String.list_ascii_of_string line_content in
  omap (λ col,
      let before_ok := bool_decide (col = 0) ||
                       negb (is_word_byte (default " "%char (lb !! (col - 1)))) in
      let after_idx := col + String.length symbol_name in
      let after_ok := bool_decide (length lb <= after_idx) ||
                      negb (is_word_byte (default " "%char (lb !! after_idx))) in
      if negb (before_ok && after_ok) then None
      else
        let point := mkPoint line_idx (N.of_nat col) in
        let p := descendant_for_point_range root point point in
        if is_valid_reference_node root p symbol_name source lang_id then
          Some {| name := symbol_name;
                  kind := "reference";
                  file_path := file_path0;
                  lang_family := lang_family0;
                  start_line := as_u32 line_number;
                  start_column := as_u32 (N.of_nat col + 1);
                  end_line := as_u32 line_number;
                  end_column := as_u32 (N.of_nat (col + 1 + String.length symbol_name)) |}
        else None)
    (match_indices line_content symbol_name).

(** ** Properties of index states *)

(** The records stored under a name ([[]] when the name is absent). *)
Definition recs (ix : SymbolIndex) (n : string) : list SymbolInfo :=
  default [] (definitions ix !! n).

(** The two maps agree: [n ∈ file_definitions[f]] exactly when
    [definitions[n]] holds a record of file [f]. *)
Definition consistent (ix : SymbolIndex) : Prop :=
  ∀ f n, (∃ names, file_definitions ix !! f = Some names ∧ n ∈ names) ↔
         (∃ r, r ∈ recs ix n ∧ file_path r = f).

(** Every reverse-index entry is a non-empty set. *)
Definition reverse_entries_nonempty (ix : SymbolIndex) : Prop :=
  ∀ f names, file_definitions ix !! f = Some names → names ≠ ∅.

(** Records extracted from one file: all of that file and family, and the
    name set is exactly the set of their names. *)
Definition extracted_from (fp fam : string) (ds : list SymbolInfo) (ns : gset string) : Prop :=
  (∀ r, r ∈ ds → file_path r = fp ∧ lang_family r = fam) ∧
  (∀ n, n ∈ ns ↔ ∃ r, r ∈ ds ∧ name r = n).

(** ** The tree-sitter interface the service uses *)

(** tree-sitter: languages, parse trees and compiled queries. *)
Class TreeSitter := {
  Language : Type;
  Tree : Type;
  Query : Type;
  ts_language : TsGrammar → Language;
  (** [parser.set_language(&language).is_ok()] *)
  set_language_ok : Language → bool;
  (** [Query::new(&language, source).ok()] *)
  query_new : Language → string → option Query;
  (** [parser.parse(content, None)] for a parser set to the given language *)
  parse : Language → string → option Tree;
  (** [cursor.matches(query, tree.root_node(), source_bytes)]: the matches in
      order, each with its captures in order *)
  query_matches : Query → Tree → string → list (list Capture);
  (** [tree.root_node()] *)
  root_node : Tree → Node
}.

(** ** The service, parameterised by tree-sitter *)

Section Service.

Context `{TS : TreeSitter}.

Record CodeNavigationService := mkService {
  parsers : gmap string Language;
  languages : gmap string Language;
  queries : gmap string Query;
  index : SymbolIndex
}.

Definition with_index (svc : CodeNavigationService) (ix : SymbolIndex)
    : CodeNavigationService :=
  mkService (parsers svc) (languages svc) (queries svc) ix.

Definition register_language (svc : CodeNavigationService) (lang_id : string)
    (language : Language) : CodeNavigationService :=
  if negb (set_language_ok language) then svc
  else
    let query_str := get_definition_query lang_id in
    let queries' :=
      if negb (String.eqb query_str "") then
        match query_new language query_str with
        | Some query => <[lang_id := query]> (queries svc)
        | None => queries svc
        end
      else queries svc in
    mkService (<[lang_id := language]> (parsers svc))
              (<[lang_id := language]> (languages svc))
              queries' (index svc).

Definition init_languages (svc : CodeNavigationService) : CodeNavigationService :=
  let svc := register_language svc "python" (ts_language TsPython) in
  let svc := register_language svc "rust" (ts_language TsRust) in
  let svc := register_language svc "go" (ts_language TsGo) in
  let svc := register_language svc "c" (ts_language TsC) in
  let svc := register_language svc "cpp" (ts_language TsCpp) in
  let svc := register_language svc "java" (ts_language TsJava) in
  let svc := register_language svc "typescript" (ts_language TsTsx) in
  register_language svc "javascript" (ts_language TsTsx).

(** [CodeNavigationService::new()] *)
Definition service_new : CodeNavigationService :=
  init_languages (mkService ∅ ∅ ∅ SymbolIndex_default).

Definition clear_file (svc : CodeNavigationService) (file_path0 : string)
    : CodeNavigationService :=
  with_index svc (clear_file_ix (index svc) file_path0).

Definition clear_all (svc : CodeNavigationService) : CodeNavigationService :=
  with_index svc (clear_all_ix (index svc)).

Definition find_definition (svc : CodeNavigationService) (symbol_name lang_family0 : string)
    : list SymbolInfo :=
  find_definition_ix (index svc) symbol_name lang_family0.

(** The [SymbolInfo] built for one capture; [row as u32 + 1] wraps around
    as a [u32] addition does in a release build. *)
Definition capture_symbol (file_path0 lang_family0 nm : string) (c : Capture) : SymbolInfo :=
  {| name := nm;
     kind := get_symbol_kind (capture_name c);
     file_path := file_path0;
     lang_family := lang_family0;
     start_line := as_u32 (as_u32 (row (cap_start c)) + 1);
     start_column := as_u32 (as_u32 (column (cap_start c)) + 1);
     end_line := as_u32 (as_u32 (row (cap_end c)) + 1);
     end_column := as_u32 (as_u32 (column (cap_end c)) + 1) |}%N.

(** The capture loop of [index_file]: a capture whose text does not decode is
    skipped ([Err(_) => continue]). *)
Definition collect_definitions (file_path0 lang_family0 : string)
    (ms : list (list Capture)) : list SymbolInfo * gset string :=
  foldl (λ acc c,
           match cap_text c with
           | None => acc
           | Some nm => (acc.1 ++ [capture_symbol file_path0 lang_family0 nm c], {[nm]} ∪ acc.2)
           end) ([], ∅) (concat ms).

(** The records and names [index_file] computes after the clear, or [None]
    when it returns early (no parser for the language, or parse failure). *)
Definition index_file_defs (svc : CodeNavigationService) (file_path0 content lang_id : string)
    : option (list SymbolInfo * gset string) :=
  language ← parsers svc !! lang_id;
  tree ← parse language content;
  let lang_family0 := get_lang_family lang_id in
  Some (match queries svc !! lang_id with
        | Some query => collect_definitions file_path0 lang_family0 (query_matches query tree content)
        | None => ([], ∅)
        end).

Definition index_file (svc : CodeNavigationService) (file_path0 content lang_id : string)
    : CodeNavigationService :=
  (* First clear existing symbols for this file *)
  let svc := clear_file svc file_path0 in
  match index_file_defs svc file_path0 content lang_id with
  | None => svc
  | Some (defs, defined_names) =>
      with_index svc (add_file_defs (index svc) file_path0 defs defined_names)
  end.

(** The capture loop of the batch indexer: [node.utf8_text(..).ok()?]
    abandons the whole file when one capture does not decode. *)
Definition collect_definitions_strict (file_path0 lang_family0 : string)
    (ms : list (list Capture)) : option (list SymbolInfo * gset string) :=
  foldl (λ acc c,
           '(ds, ns) ← acc;
           nm ← cap_text c;
           Some (ds ++ [capture_symbol file_path0 lang_family0 nm c], {[nm]} ∪ ns))
        (Some ([], ∅)) (concat ms).

(** Phase 1 of [code_nav_index_files_batch] for one file. *)
Definition batch_extract (file_path0 content lang_id : string)
    : option (list SymbolInfo * gset string * string) :=
  g ← language_for_id lang_id;
  let language := ts_language g in
  if negb (set_language_ok language) then None
  else
    tree ← parse language content;
    let lang_family0 := get_lang_family lang_id in
    def_query ← query_new language (get_definition_query lang_id);
    '(defs, defined_names) ← collect_definitions_strict file_path0 lang_family0
                                (query_matches def_query tree content);
    Some (defs, defined_names, file_path0).

(** Phase 2: clear each file then insert, in the order of phase 1. *)
Definition batch_merge (svc : CodeNavigationService)
    (def_results : list (list SymbolInfo * gset string * string)) : CodeNavigationService :=
  foldl (λ svc '(defs, defined_names, fp),
           let svc := clear_file svc fp in
           with_index svc (add_file_defs (index svc) fp defs defined_names))
        svc def_results.

Definition index_files_batch (svc : CodeNavigationService)
    (files : list (string * string * string)) : CodeNavigationService :=
  batch_merge svc (omap (λ '(fp, content, lang_id), batch_extract fp content lang_id) files).

(** [code_nav_get_indexed_files] *)
Definition list_indexed_files (svc : CodeNavigationService) : list string :=
  (map_to_list (file_definitions (index svc))).*1.

(** Mutating commands, for sequences of calls. *)
Inductive Op :=
  | OpIndexFile (fp content lang_id : string)
  | OpIndexFilesBatch (files : list (string * string * string))
  | OpClearFile (fp : string)
  | OpClearAll.

Definition step (svc : CodeNavigationService) (op : Op) : CodeNavigationService :=
  match op with
  | OpIndexFile fp c l => index_file svc fp c l
  | OpIndexFilesBatch files => index_files_batch svc files
  | OpClearFile fp => clear_file svc fp
  | OpClearAll => clear_all svc
  end.

Definition run_ops (svc : CodeNavigationService) (ops : list Op) : CodeNavigationService :=
  foldl step svc ops.

End Service.

(** ** Host collaborators: ripgrep, file system, serde_json, sha2 *)

Inductive Result (T E : Type) := Ok (x : T) | Err (e : E).
Arguments Ok {T E} x.
Arguments Err {T E} e.

Record SearchMatch := mkSearchMatch {
  line_number : N;
  line_content : string;
  byte_offset : N
}.

Record SearchResult := mkSearchResult {
  result_file_path : string;
  matches : list SearchMatch
}.

(** Current version of the persisted index format. *)
Definition INDEX_VERSION : N := 2.

Record PersistedIndex := mkPersistedIndex {
  version : N;
  root_path : string;
  last_updated : Z;
  file_timestamps : gmap string Z;
  persisted_definitions : gmap string (list SymbolInfo);
  persisted_file_definitions : gmap string (gset string)
}.

Class Host := {
  (** [RipgrepSearch::new().with_max_results(r).with_max_matches_per_file(m)
      .search_content(pattern, root_path)] *)
  search_content : nat → nat → string → string → Result (list SearchResult) string;
  (** [regex::escape] *)
  regex_escape : string → string;
  (** [fs::read_to_string] on a source file *)
  read_to_string : string → option string;
  (** JSON text of a snapshot file *)
  Json : Type;
  (** [serde_json::to_string(&persisted).ok()] *)
  json_to_string : PersistedIndex → option Json;
  (** [serde_json::from_str(&json).ok()] *)
  json_from_str : Json → option PersistedIndex;
  (** the first 16 hex digits of the SHA-256 of the root path *)
  get_project_hash : string → string;
  (** [app_handle.path().app_data_dir().ok()] *)
  app_data_dir : option string
}.

(** Snapshot files: path to content.  Directory creation and file writes
    are not modelled as failing. *)
Abbreviation Fs := (gmap string Json).

Section Commands.
Context `{TS : TreeSitter} `{H : Host}.

(** [file_path.rsplit('.').next()]: the text after the last dot (the whole
    path when there is none). *)
Fixpoint last_segment (s : string) (acc : string) : string :=
  match s with
  | EmptyString => acc
  | String c rest => if Ascii.eqb c "."%char then last_segment rest "" else last_segment rest (acc ++ String c "")%string
  end.

Definition ascii_lower (c : ascii) : ascii :=
  let n := nat_of_ascii c in
  if (65 <=? n) && (n <=? 90) then ascii_of_nat (n + 32) else c.

(** ASCII lowercasing.  [str::to_lowercase] also lowercases non-ASCII
    letters, but no non-ASCII character lowercases into one of the
    extensions [get_lang_id_from_path] compares with, so the two agree
    there. *)
Fixpoint to_lowercase (s : string) : string :=
  match s with
  | EmptyString => EmptyString
  | String c rest => String (ascii_lower c) (to_lowercase rest)
  end.

Definition get_lang_id_from_path (file_path0 : string) : option string :=
  let ext := to_lowercase (last_segment file_path0 "") in
  if String.eqb ext "py" then Some "python"
  else if String.eqb ext "rs" then Some "rust"
  else if String.eqb ext "go" then Some "go"
  else if String.eqb ext "c" || String.eqb ext "h" then Some "c"
  else if existsb (String.eqb ext) ["cpp"; "cc"; "cxx"; "hpp"; "hxx"] then Some "cpp"
  else if String.eqb ext "java" then Some "java"
  else if String.eqb ext "ts" || String.eqb ext "tsx" then Some "typescript"
  else if existsb (String.eqb ext) ["js"; "jsx"; "mjs"; "cjs"] then Some "javascript"
  else None.

(** References found in one ripgrep result (one file). *)
Definition references_in_result (symbol_name lang_family0 : string) (result : SearchResult)
    : list SymbolInfo :=
  match get_lang_id_from_path (result_file_path result) with
  | None => []
  | Some lang_id =>
    if negb (String.eqb (get_lang_family lang_id) lang_family0) then []
    else
    match read_to_string (result_file_path result) with
    | None => []
    | Some content =>
      match language_for_id lang_id with
      | None => []
      | Some g =>
        let language := ts_language g in
        if negb (set_language_ok language) then []
        else
        match parse language content with
        | None => []
        | Some tree =>
            flat_map (λ m, validate_reference_at_line (root_node tree) content (line_number m)
                             symbol_name lang_id (result_file_path result) lang_family0)
                     (matches result)
        end
      end
    end
  end.

Definition find_references_hybrid (svc : CodeNavigationService) (symbol_name lang_family0 root_path0 : string)
    : list SymbolInfo :=
  let pattern := ("\b" ++ regex_escape symbol_name ++ "\b")%string in
  match search_content 500 100 pattern root_path0 with
  | Err _ => []
  | Ok search_results => flat_map (references_in_result symbol_name lang_family0) search_results
  end.

(** [code_nav_find_references_hybrid]: takes the read lock only. *)
Definition code_nav_find_references_hybrid (svc : CodeNavigationService)
    (symbol_name lang_family0 root_path0 : string)
    : Result (list SymbolInfo) string * CodeNavigationService :=
  (Ok (find_references_hybrid svc symbol_name lang_family0 root_path0), svc).

Definition get_index_path (root_path0 : string) : option string :=
  index_dir ← app_data_dir;
  Some (index_dir ++ "/code-index/" ++ get_project_hash root_path0 ++ ".json")%string.

Definition code_nav_save_index (svc : CodeNavigationService) (fs : Fs) (root_path0 : string)
    (file_timestamps0 : gmap string Z) (now : Z) : Result unit string * Fs :=
  let persisted := {| version := INDEX_VERSION;
                      root_path := root_path0;
                      last_updated := now;
                      file_timestamps := file_timestamps0;
                      persisted_definitions := definitions (index svc);
                      persisted_file_definitions := file_definitions (index svc) |} in
  match get_index_path root_path0 with
  | None => (Err "Failed to get app data dir", fs)
  | Some index_path =>
      match json_to_string persisted with
      | None => (Err "Failed to serialize index", fs)
      | Some json => (Ok (), <[index_path := json]> fs)
      end
  end.

Definition code_nav_load_index (svc : CodeNavigationService) (fs : Fs) (root_path0 : string)
    : Result bool string * CodeNavigationService * Fs :=
  match get_index_path root_path0 with
  | None => (Err "Failed to get app data dir", svc, fs)
  | Some index_path =>
    match fs !! index_path with
    | None => (Ok false, svc, fs)
    | Some json =>
      match json_from_str json with
      | None => (Err "Failed to deserialize index", svc, fs)
      | Some persisted =>
        if negb (version persisted =? INDEX_VERSION)%N then
          (* Delete outdated index file *)
          (Ok false, svc, delete index_path fs)
        else if negb (String.eqb (root_path persisted) root_path0) then
          (Ok false, svc, fs)
        else
          let svc := clear_all svc in
          (Ok true,
           with_index svc (mkSymbolIndex (persisted_definitions persisted)
                                         (persisted_file_definitions persisted)),
           fs)
      end
    end
  end.

End Commands.

(** ** The three JavaScript/TypeScript lines of the reference scenarios

    Each line is a whole file; its tree is the one tree-sitter-typescript's
    TSX grammar builds for it (named and anonymous nodes, with field names). *)
Module TsxScenarios.

Definition leaf (k : string) (s e : N) : Node :=
  mkNode k s e (mkPoint 0 s) (mkPoint 0 e) [].
Definition node (k : string) (s e : N) (cs : list (option string * Node)) : Node :=
  mkNode k s e (mkPoint 0 s) (mkPoint 0 e) cs.

(** The one-character string holding a double quote. *)
Definition dq : string := String "034"%char EmptyString.

(** [string] node: quote, fragment, quote. *)
Definition string_node (s e : N) : Node :=
  node "string" s e [(None, leaf dq s (s + 1)); (None, leaf "string_fragment" (s + 1) (e - 1));
                     (None, leaf dq (e - 1) e)]%N.

(** [const foo = "foo is here";] *)
Definition src_decl : string := ("const foo = " ++ dq ++ "foo is here" ++ dq ++ ";")%string.
Definition tree_decl : Node :=
  node "program" 0 26
    [(None, node "lexical_declaration" 0 26
       [(Some "kind", leaf "const" 0 5);
        (None, node "variable_declarator" 6 25
           [(Some "name", leaf "identifier" 6 9);
            (None, leaf "=" 10 11);
            (Some "value", string_node 12 25)]);
        (None, leaf ";" 25 26)])].

(** [obj.value = value;] *)
Definition src_member : string := "obj.value = value;".
Definition tree_member : Node :=
  node "program" 0 18
    [(None, node "expression_statement" 0 18
       [(None, node "assignment_expression" 0 17
          [(Some "left", node "member_expression" 0 9
              [(Some "object", leaf "identifier" 0 3);
               (None, leaf "." 3 4);
               (Some "property", leaf "property_identifier" 4 9)]);
           (None, leaf "=" 10 11);
           (Some "right", leaf "identifier" 12 17)]);
        (None, leaf ";" 17 18)])].

(** [import { original as renamed } from "x"; renamed();] *)
Definition src_import : string :=
  ("import { original as renamed } from " ++ dq ++ "x" ++ dq ++ "; renamed();")%string.
Definition tree_import : Node :=
  node "program" 0 51
    [(None, node "import_statement" 0 40
       [(None, leaf "import" 0 6);
        (None, node "import_clause" 7 30
           [(None, node "named_imports" 7 30
              [(None, leaf "{" 7 8);
               (None, node "import_specifier" 9 28
                  [(Some "name", leaf "identifier" 9 17);
                   (None, leaf "as" 18 20);
                   (Some "alias", leaf "identifier" 21 28)]);
               (None, leaf "}" 29 30)])]);
        (None, leaf "from" 31 35);
        (Some "source", string_node 36 39);
        (None, leaf ";" 39 40)]);
     (None, node "expression_statement" 41 51
       [(None, node "call_expression" 41 50
           [(Some "function", leaf "identifier" 41 48);
            (Some "arguments", node "arguments" 48 50
               [(None, leaf "(" 48 49); (None, leaf ")" 49 50)])]);
        (None, leaf ";" 50 51)])].

(** Validation of line 1 of a [.ts] file holding one of these lines. *)
Definition validate (tree : Node) (src symbol_name : string) : list SymbolInfo :=
  validate_reference_at_line tree src 1 symbol_name "typescript" "a.ts" "js_family".

(** A reference record on line 1 between two one-based columns. *)
Definition reference_at (nm : string) (sc ec : N) : SymbolInfo :=
  {| name := nm; kind := "reference"; file_path := "a.ts"; lang_family := "js_family";
     start_line := 1; start_column := sc; end_line := 1; end_column := ec |}.

End TsxScenarios.

(** ** More persistence commands *)

(** [IndexMetadata]; the fields are prefixed where their Rust names are
    already [PersistedIndex]'s projections. *)
Record IndexMetadata := mkIndexMetadata {
  meta_version : N;
  meta_root_path : string;
  meta_last_updated : Z;
  file_count : nat;
  definition_count : nat;
  meta_file_timestamps : gmap string Z
}.

(** [fs::remove_file]: the text of its error, none when the file is removed. *)
Class RemoveFile := {
  remove_file_error : string → option string
}.

Section MoreCommands.
Context `{H : Host} `{RF : RemoveFile}.

(** [persisted.definitions.values().map(|v| v.len()).sum()] *)
Definition definition_total (defs : gmap string (list SymbolInfo)) : nat :=
  map_fold (λ _ v acc, length v + acc) 0 defs.

(** [code_nav_get_index_metadata] *)
Definition code_nav_get_index_metadata (fs : Fs) (root_path0 : string)
    : Result (option IndexMetadata) string :=
  match get_index_path root_path0 with
  | None => Err "Failed to get app data dir"
  | Some index_path =>
    match fs !! index_path with
    | None => Ok None
    | Some json =>
      match json_from_str json with
      | None => Err "Failed to deserialize index"
      | Some persisted =>
        if negb (version persisted =? INDEX_VERSION)%N then Ok None
        else Ok (Some {| meta_version := version persisted;
                         meta_root_path := root_path persisted;
                         meta_last_updated := last_updated persisted;
                         file_count := size (persisted_file_definitions persisted);
                         definition_count := definition_total (persisted_definitions persisted);
                         meta_file_timestamps := file_timestamps persisted |})
      end
    end
  end.

(** [code_nav_delete_index]: a failing [fs::remove_file] leaves the file
    in place and is reported. *)
Definition code_nav_delete_index (fs : Fs) (root_path0 : string) : Result unit string * Fs :=
  match get_index_path root_path0 with
  | None => (Err "Failed to get app data dir", fs)
  | Some index_path =>
    match fs !! index_path with
    | Some _ =>
        match remove_file_error index_path with
        | Some e => (Err ("Failed to delete index file: " ++ e)%string, fs)
        | None => (Ok (), delete index_path fs)
        end
    | None => (Ok (), fs)
    end
  end.

End MoreCommands.

(** The line [validate_reference_at_line] examines: the bytes from
    [line_start] to the next newline (its first five [let]s). *)
Definition line_content_of (source : string) (line_number : N) : string :=
  let line_idx := (line_number - 1)%N in
  let bytes := String.list_ascii_of_string source in
  let line_start := find_line_start bytes 0 0 line_idx in
  let rest := drop (N.to_nat line_start) bytes in
  let line_end := match list_find is_newline rest with
                  | Some (pos, _) => N.to_nat line_start + pos
                  | None => length bytes
                  end in
  String.substring (N.to_nat line_start) (line_end - N.to_nat line_start) source.

(** Number of newline bytes. *)
Definition count_newlines (bytes : list ascii) : nat := length (filter (λ b, is_newline b = true) bytes).

(** ** Text search (src-tauri/src/search.rs, src-tauri/src/constants.rs) *)

Definition CODE_EXTENSIONS : list string :=
  ["rs"; "js"; "jsx"; "ts"; "tsx"; "py"; "java"; "c"; "cpp"; "cc"; "cxx";
   "h"; "hpp"; "cs"; "php"; "rb"; "go"; "swift"; "kt"; "scala"; "clj";
   "html"; "htm"; "css"; "scss"; "sass"; "less"; "vue"; "svelte";
   "json"; "xml"; "yaml"; "yml"; "toml"; "ini"; "cfg"; "conf";
   "md"; "mdx"; "txt"; "rst"; "tex"; "org"; "log";
   "sh"; "bash"; "zsh"; "fish"; "ps1"; "bat"; "cmd";
   "sql"; "graphql"; "gql"; "proto"; "thrift";
   "r"; "m"; "mm"; "pl"; "pm"; "lua"; "vim"; "el";
   "dart"; "elm"; "haskell"; "hs"; "ml"; "fs"; "fsx"; "fsi";
   "coffee"; "litcoffee"; "haml"; "pug"; "jade"; "slim";
   "styl"; "stylus"; "postcss"; "pcss"; "lock"].

Definition CODE_FILENAMES : list string :=
  ["dockerfile"; "makefile"; "rakefile"; "gemfile"; "podfile"; "vagrantfile";
   "procfile"; "cakefile"; "gruntfile"; "gulpfile"].

(** [CODE_EXTENSIONS.contains(&extension)]: case-sensitive. *)
Definition is_code_extension (extension : string) : bool :=
  existsb (String.eqb extension) CODE_EXTENSIONS.

(** The regex engine, the directory walker and grep's searcher. *)
Class SearchEnv := {
  (** [RegexMatcherBuilder::new().case_insensitive(true).line_terminator(..).build(query)]:
      the text of its error, none when the matcher builds *)
  regex_error : string → option string;
  (** the file entries the walker yields under [root_path] (hidden files,
      [.ignore] rules, depth 20 and excluded directories applied), in walk order *)
  walk_files : string → option (gset string) → list string;
  (** [searcher.search_path(matcher, path, sink)] seen from the sink: the
      matching lines in order (line number and text), and whether the search
      ends in an error (I/O, or a line that is not UTF-8) after them when the
      sink does not stop it *)
  search_path : string → string → list (N * string) * bool;
  (** [str::trim_end] *)
  trim_end : string → string;
  (** [str::to_lowercase] (Unicode) *)
  str_to_lowercase : string → string
}.

Section Ripgrep.
Context `{SE : SearchEnv}.

(** [CODE_FILENAMES.contains(&filename.to_lowercase())] *)
Definition is_code_filename (filename : string) : bool :=
  existsb (String.eqb (str_to_lowercase filename)) CODE_FILENAMES.

Record RipgrepSearch := mkRipgrepSearch {
  max_results : nat;
  max_matches_per_file : nat;
  file_types : option (gset string);
  exclude_dirs : option (gset string)
}.

Definition RipgrepSearch_default : RipgrepSearch := mkRipgrepSearch 100 10 None None.

Definition with_max_results (rs : RipgrepSearch) (n : nat) : RipgrepSearch :=
  mkRipgrepSearch n (max_matches_per_file rs) (file_types rs) (exclude_dirs rs).

Definition with_max_matches_per_file (rs : RipgrepSearch) (n : nat) : RipgrepSearch :=
  mkRipgrepSearch (max_results rs) n (file_types rs) (exclude_dirs rs).

(** The extensions are lowercased when stored. *)
Definition with_file_types (rs : RipgrepSearch) (ft : option (list string)) : RipgrepSearch :=
  mkRipgrepSearch (max_results rs) (max_matches_per_file rs)
    ((λ types, list_to_set (map str_to_lowercase types) : gset string) <$> ft) (exclude_dirs rs).

Definition with_exclude_dirs (rs : RipgrepSearch) (dirs : option (list string)) : RipgrepSearch :=
  mkRipgrepSearch (max_results rs) (max_matches_per_file rs) (file_types rs)
    ((λ ds, list_to_set ds : gset string) <$> dirs).

(** The text after the last occurrence of [sep] (all of it when there is none). *)
Fixpoint after_last (sep : ascii) (s acc : string) : string :=
  match s with
  | EmptyString => acc
  | String c rest => if Ascii.eqb c sep then after_last sep rest "" else after_last sep rest (acc ++ String c "")%string
  end.

(** Index of the last occurrence of [c] in [s], counting from [i]. *)
Fixpoint last_index_of (c : ascii) (s : string) (i : nat) (acc : option nat) : option nat :=
  match s with
  | EmptyString => acc
  | String d rest => last_index_of c rest (S i) (if Ascii.eqb d c then Some i else acc)
  end.

(** [path.file_name()] of a file path as the directory walker yields it
    (components separated by '/', the last one a file name). *)
Definition path_file_name (p : string) : string := after_last "/"%char p "".

(** [path.extension()]: the text after the last dot of the file name; none
    for [..], for a name without a dot, and for a name whose only dot is
    its first character. *)
Definition path_extension (p : string) : option string :=
  let fname := path_file_name p in
  if String.eqb fname ".." then None
  else match last_index_of "."%char fname 0 None with
       | None => None
       | Some 0 => None
       | Some k => Some (String.substring (S k) (String.length fname - S k) fname)
       end.

Definition is_code_file (p : string) : bool :=
  match path_extension p with
  | Some ext => is_code_extension ext
  | None => is_code_filename (path_file_name p)
  end.

Definition is_valid_file (rs : RipgrepSearch) (p : string) : bool :=
  match file_types rs with
  | Some fts =>
      match path_extension p with
      | Some ext => bool_decide (str_to_lowercase ext ∈ fts)
      | None => false
      end
  | None => is_code_file p
  end.

(** [search_in_file_fast]: the sink stops the search at the first match past
    [max_matches]; an error of the search discards the matches. *)
Definition search_in_file_fast (query file_path0 : string) (max_matches : nat)
    : option SearchResult :=
  let '(lines, err) := search_path query file_path0 in
  let outcome := if bool_decide (max_matches < length lines) then Some (take max_matches lines)
                 else if err then None else Some lines in
  match outcome with
  | None => None
  | Some ls =>
      match map (λ '(lnum, line), mkSearchMatch lnum (trim_end line) 0) ls with
      | [] => None
      | ms => Some (mkSearchResult file_path0 ms)
      end
  end.

(** The body of the parallel loop, run on the files in the order their
    pushes take the result lock. *)
Definition collect_results (rs : RipgrepSearch) (query : string) (order : list string)
    : list SearchResult :=
  foldl (λ results p,
           if bool_decide (max_results rs ≤ length results) then results
           else match search_in_file_fast query p (max_matches_per_file rs) with
                | Some result =>
                    if negb (bool_decide (matches result = []))
                       && bool_decide (length results < max_results rs)
                    then results ++ [result] else results
                | None => results
                end) [] order.

(** [RipgrepSearch::search_content]: the outcomes the parallel loop can
    produce, one for every order in which the files finish. *)
Inductive search_content_outcome (rs : RipgrepSearch) (query root_path0 : string)
    : Result (list SearchResult) string → Prop :=
  | search_empty_query :
      query = "" → search_content_outcome rs query root_path0 (Ok [])
  | search_bad_regex :
      ∀ e, query ≠ "" → regex_error query = Some e →
      search_content_outcome rs query root_path0 (Err ("Failed to create regex matcher: " ++ e)%string)
  | search_done order :
      query ≠ "" → regex_error query = None →
      order ≡ₚ filter (λ p, is_valid_file rs p = true) (walk_files root_path0 (exclude_dirs rs)) →
      search_content_outcome rs query root_path0 (Ok (collect_results rs query order)).

End Ripgrep.

(** ** A small concrete system: every grammar loads, a parse tree is the
    source text itself, and each definition query captures one function
    [foo]; snapshot files hold the persisted value itself (serde round-trips),
    every root path hashes to [h] and ripgrep fails. *)
Module Toy.

Definition toy_capture : Capture :=
  mkCapture (Some "foo") "definition.function" (mkPoint 0 4) (mkPoint 0 7).

Definition toy_ts : TreeSitter := {|
  Language := TsGrammar;
  Tree := string;
  Query := string;
  ts_language := λ g, g;
  set_language_ok := λ _, true;
  query_new := λ _ q, Some q;
  parse := λ _ content, Some content;
  query_matches := λ _ _ _, [[toy_capture]];
  root_node := λ _, mkNode "module" 0 0 (mkPoint 0 0) (mkPoint 0 0) []
|}.

Definition toy_host : Host := {|
  search_content := λ _ _ _ _, Err "search failed";
  regex_escape := λ s, s;
  read_to_string := λ _, None;
  Json := PersistedIndex;
  json_to_string := Some;
  json_from_str := Some;
  get_project_hash := λ _, "h";
  app_data_dir := Some "/data"
|}.

(** The service after indexing [a.py]. *)
Definition toy_service : @CodeNavigationService toy_ts :=
  @index_file toy_ts (@service_new toy_ts) "a.py" "def foo(): pass" "python".

Definition toy_index_path : string := "/data/code-index/h.json".

(** A snapshot written by an older version for another root. *)
Definition stale_foreign : PersistedIndex :=
  mkPersistedIndex 1 "/other" 0 ∅ ∅ ∅.

(** The snapshot files holding only that snapshot. *)
Definition stale_fs : gmap string PersistedIndex := {[toy_index_path := stale_foreign]}.

(** The same host without an application data directory. *)
(** A source of two lines. *)
Definition toy_source : string := String "a" (String "010"%char (String "b" EmptyString)).

(** A file system where every removal succeeds. *)
Definition toy_remove : RemoveFile := {| remove_file_error := λ _, None |}.

(** A walker yielding three files, two matching lines in [src/main.rs]
    followed by a read error, and a regex engine refusing ["("]. *)
Definition toy_search : SearchEnv := {|
  regex_error := λ q, if String.eqb q "(" then Some "unclosed group" else None;
  walk_files := λ _ _, ["src/main.rs"; "README"; "notes.bin"];
  search_path := λ _ p, if String.eqb p "src/main.rs" then ([(1%N, "fn main() {}"); (3%N, "  main();")], true) else ([], false);
  trim_end := λ s, s;
  str_to_lowercase := to_lowercase
|}.

End Toy.

(** What [clear_file] leaves under one name it visits. *)
Definition clear_entry (file_path0 : string) (o : option (list SymbolInfo))
    : option (list SymbolInfo) :=
  o ≫= λ symbols, match filter (λ s, file_path s ≠ file_path0) symbols with
                  | [] => None
                  | l => Some l
                  end.

(** No name is stored with an empty record list. *)
Definition entries_nonempty (ix : SymbolIndex) : Prop :=
  ∀ n, definitions ix !! n ≠ Some [].

(** ** Lemmas on the symbol index *)

Section IndexLemmas.

Lemma filter_idemp (P : SymbolInfo → Prop) `{!∀ x, Decision (P x)} (l : list SymbolInfo) :
  filter P (filter P l) = filter P l.
Proof. apply list_filter_filter_r. done. Qed.

Lemma recs_clear_name f defs nm n :
  default [] (clear_name f defs nm !! n) =
  if decide (n = nm) then filter (λ s, file_path s ≠ f) (default [] (defs !! n))
  else default [] (defs !! n).
Proof.
  unfold clear_name. destruct (decide (n = nm)) as [->|Hne].
  - destruct (defs !! nm) as [symbols|] eqn:Hd; [|simpl; by rewrite ?Hd]. simpl.
    destruct (filter _ symbols) eqn:Hf.
    + by rewrite lookup_delete_eq.
    + by rewrite lookup_insert_eq.
  - destruct (defs !! nm) as [symbols|] eqn:Hd; [|done].
    destruct (filter _ symbols).
    + by rewrite lookup_delete_ne.
    + by rewrite lookup_insert_ne.
Qed.

Lemma recs_clear_names f defs (l : list string) n :
  default [] (foldr (λ nm defs, clear_name f defs nm) defs l !! n) =
  if decide (n ∈ l) then filter (λ s, file_path s ≠ f) (default [] (defs !! n))
  else default [] (defs !! n).
Proof.
  induction l as [|x l IH].
  - rewrite decide_False; [done|]. apply not_elem_of_nil.
  - cbn [foldr]. rewrite recs_clear_name, IH.
    destruct (decide (n = x)) as [->|Hne].
    + destruct (decide (x ∈ x :: l)) as [_|Hn];
        [|exfalso; apply Hn; apply elem_of_cons; by left].
      destruct (decide (x ∈ l)); [apply filter_idemp|done].
    + destruct (decide (n ∈ x :: l)) as [Hin|Hin];
        destruct (decide (n ∈ l)) as [Hin'|Hin']; try done.
      * exfalso. apply elem_of_cons in Hin. tauto.
      * exfalso. apply Hin. apply elem_of_cons. by right.
Qed.

Lemma recs_clear_file_ix ix f n :
  recs (clear_file_ix ix f) n =
  match file_definitions ix !! f with
  | Some names => if decide (n ∈ names) then filter (λ s, file_path s ≠ f) (recs ix n)
                  else recs ix n
  | None => recs ix n
  end.
Proof.
  unfold clear_file_ix, recs. destruct (file_definitions ix !! f) as [names|]; [|done].
  simpl. unfold set_fold. simpl. rewrite recs_clear_names.
  destruct (decide (n ∈ elements names)) as [Hin|Hin];
    rewrite elem_of_elements in Hin;
    [rewrite decide_True by done|rewrite decide_False by done]; done.
Qed.

Lemma file_definitions_clear_file_ix ix f :
  file_definitions (clear_file_ix ix f) = delete f (file_definitions ix).
Proof.
  unfold clear_file_ix. destruct (file_definitions ix !! f) eqn:Hf; [done|].
  by rewrite delete_id.
Qed.

Lemma recs_push_symbols d (defs : list SymbolInfo) fd n :
  recs (mkSymbolIndex (foldl push_symbol d defs) fd) n =
  default [] (d !! n) ++ filter (λ s, name s = n) defs.
Proof.
  unfold recs. simpl. revert d. induction defs as [|s defs IH]; intros d; simpl.
  - by rewrite app_nil_r.
  - rewrite IH. unfold push_symbol. rewrite filter_cons.
    destruct (decide (name s = n)) as [<-|Hne].
    + rewrite lookup_insert_eq. simpl. by rewrite <- app_assoc.
    + by rewrite lookup_insert_ne.
Qed.

Lemma recs_add_file_defs ix f ds ns n :
  recs (add_file_defs ix f ds ns) n = recs ix n ++ filter (λ s, name s = n) ds.
Proof. unfold add_file_defs. apply recs_push_symbols. Qed.

End IndexLemmas.

Section Invariants.

Lemma clear_file_ix_consistent ix f :
  consistent ix →
  consistent (clear_file_ix ix f) ∧
  file_definitions (clear_file_ix ix f) !! f = None ∧
  (∀ n r, r ∈ recs (clear_file_ix ix f) n → file_path r ≠ f).
Proof.
  intros Hc. rewrite file_definitions_clear_file_ix.
  assert (Hno : ∀ n r, r ∈ recs (clear_file_ix ix f) n → file_path r ≠ f).
  { intros n r Hr Hf. rewrite recs_clear_file_ix in Hr.
    destruct (file_definitions ix !! f) as [names|] eqn:Hfd.
    - destruct (decide (n ∈ names)) as [Hin|Hin].
      + apply list_elem_of_filter in Hr as [? _]. done.
      + apply Hin. destruct (proj2 (Hc f n) (ex_intro _ r (conj Hr Hf)))
          as (names' & Hn' & Hin'). congruence.
    - destruct (proj2 (Hc f n) (ex_intro _ r (conj Hr Hf))) as (names' & Hn' & _).
      congruence. }
  split_and!; [|apply lookup_delete_eq|done].
  intros g n. rewrite file_definitions_clear_file_ix.
  destruct (decide (g = f)) as [->|Hgf].
  - rewrite lookup_delete_eq. split.
    + intros (? & ? & _). done.
    + intros (r & Hr & Hf). exfalso. by apply (Hno n r).
  - rewrite lookup_delete_ne by congruence. rewrite (Hc g n).
    rewrite recs_clear_file_ix.
    destruct (file_definitions ix !! f) as [names|]; [|done].
    destruct (decide (n ∈ names)); [|done].
    split; intros (r & Hr & Hg); exists r; split; try done.
    + apply list_elem_of_filter. split; [congruence|done].
    + by apply list_elem_of_filter in Hr as [_ ?].
Qed.

Lemma add_file_defs_consistent ix f fam ds ns :
  consistent ix →
  file_definitions ix !! f = None →
  (∀ n r, r ∈ recs ix n → file_path r ≠ f) →
  extracted_from f fam ds ns →
  consistent (add_file_defs ix f ds ns).
Proof.
  intros Hc Hnone Hno [Hds Hns] g n.
  rewrite recs_add_file_defs. unfold add_file_defs. simpl.
  assert (Hnew : (∃ r, r ∈ filter (λ s, name s = n) ds ∧ file_path r = g) ↔
                 g = f ∧ n ∈ ns).
  { split.
    - intros (r & Hr & Hg). apply list_elem_of_filter in Hr as [Hn Hr].
      split; [rewrite <- Hg; apply Hds, Hr|]. apply Hns. eauto.
    - intros [-> Hn]. apply Hns in Hn as (r & Hr & Hrn). exists r.
      split; [by apply list_elem_of_filter|apply Hds, Hr]. }
  assert (Hsplit : (∃ r, r ∈ recs ix n ++ filter (λ s, name s = n) ds ∧ file_path r = g) ↔
                   (∃ r, r ∈ recs ix n ∧ file_path r = g) ∨
                   (∃ r, r ∈ filter (λ s, name s = n) ds ∧ file_path r = g)).
  { split.
    - intros (r & Hr & Hg). apply elem_of_app in Hr as [Hr|Hr]; [left|right]; eauto.
    - intros [(r & Hr & Hg)|(r & Hr & Hg)]; exists r; rewrite elem_of_app; auto. }
  rewrite Hsplit, Hnew, <- (Hc g n).
  destruct (decide (g = f)) as [->|Hgf].
  - rewrite Hnone. destruct (decide (ns = ∅)) as [Hemp|Hemp].
    + rewrite Hnone. split; [intros (? & ? & _); done|].
      intros [(? & ? & _)|[_ Hn]]; [done|]. rewrite Hemp in Hn. set_solver.
    + rewrite lookup_insert_eq. split.
      * intros (names & [= <-] & Hn). by right.
      * intros [(? & ? & _)|[_ Hn]]; [done|]. eauto.
  - assert (Hfd : (if decide (ns = ∅) then file_definitions ix
                   else <[f:=ns]> (file_definitions ix)) !! g = file_definitions ix !! g).
    { destruct (decide (ns = ∅)); [done|]. by rewrite lookup_insert_ne. }
    rewrite Hfd. split; [by left|]. intros [?|[? _]]; done.
Qed.

Lemma add_file_defs_nonempty ix f ds ns :
  reverse_entries_nonempty ix → reverse_entries_nonempty (add_file_defs ix f ds ns).
Proof.
  intros Hne g names. unfold add_file_defs. simpl.
  destruct (decide (ns = ∅)) as [Hemp|Hemp]; [apply Hne|].
  destruct (decide (g = f)) as [->|Hgf].
  - rewrite lookup_insert_eq. by intros [= <-].
  - rewrite lookup_insert_ne by congruence. apply Hne.
Qed.

Lemma clear_file_ix_nonempty ix f :
  reverse_entries_nonempty ix → reverse_entries_nonempty (clear_file_ix ix f).
Proof.
  intros Hne g names. rewrite file_definitions_clear_file_ix.
  destruct (decide (g = f)) as [->|Hgf].
  - by rewrite lookup_delete_eq.
  - rewrite lookup_delete_ne by congruence. apply Hne.
Qed.

Lemma empty_consistent : consistent SymbolIndex_default.
Proof.
  intros f n. unfold recs. simpl. rewrite !lookup_empty. simpl.
  split; [intros (? & ? & _); done|intros (? & Hr & _); by apply elem_of_nil in Hr].
Qed.

Lemma empty_nonempty : reverse_entries_nonempty SymbolIndex_default.
Proof. intros f names. simpl. by rewrite lookup_empty. Qed.

End Invariants.

Section ServiceLemmas.
Context `{TS : TreeSitter}.

Lemma foldl_invariant {A B} (P : A → Prop) (g : A → B → A) (l : list B) (a : A) :
  P a → (∀ a x, P a → x ∈ l → P (g a x)) → P (foldl g a l).
Proof.
  revert a. induction l as [|x l IH]; intros a Ha Hg; simpl; [done|].
  apply IH; [apply Hg; [done|apply elem_of_cons; by left]|].
  intros a' y Ha' Hy. apply Hg; [done|apply elem_of_cons; by right].
Qed.

Lemma extracted_from_nil fp fam : extracted_from fp fam [] ∅.
Proof.
  split; [intros r Hr; by apply elem_of_nil in Hr|].
  intros n. split; [set_solver|intros (r & Hr & _); by apply elem_of_nil in Hr].
Qed.

Lemma extracted_from_snoc fp fam ds ns nm c :
  extracted_from fp fam ds ns →
  extracted_from fp fam (ds ++ [capture_symbol fp fam nm c]) ({[nm]} ∪ ns).
Proof.
  intros [Hds Hns]. split.
  - intros r Hr. apply elem_of_app in Hr as [Hr|Hr]; [by apply Hds|].
    apply list_elem_of_singleton in Hr as ->. done.
  - intros n. rewrite elem_of_union, elem_of_singleton, Hns. split.
    + intros [->|(r & Hr & Hn)].
      * exists (capture_symbol fp fam nm c). rewrite elem_of_app, list_elem_of_singleton. auto.
      * exists r. rewrite elem_of_app. auto.
    + intros (r & Hr & Hn). apply elem_of_app in Hr as [Hr|Hr]; [eauto|].
      apply list_elem_of_singleton in Hr as ->. by left.
Qed.

Lemma collect_definitions_extracted fp fam ms :
  extracted_from fp fam (collect_definitions fp fam ms).1 (collect_definitions fp fam ms).2.
Proof.
  unfold collect_definitions.
  apply (foldl_invariant (λ acc, extracted_from fp fam acc.1 acc.2)).
  - apply extracted_from_nil.
  - intros [ds ns] c Hacc _. destruct (cap_text c) as [nm|]; [|done].
    by apply extracted_from_snoc.
Qed.

Lemma collect_definitions_strict_extracted fp fam ms ds ns :
  collect_definitions_strict fp fam ms = Some (ds, ns) → extracted_from fp fam ds ns.
Proof.
  unfold collect_definitions_strict. revert ds ns.
  apply (foldl_invariant (λ acc, ∀ ds ns, acc = Some (ds, ns) → extracted_from fp fam ds ns)).
  - intros ds ns [= <- <-]. apply extracted_from_nil.
  - intros [[ds0 ns0]|] c Hacc _ ds ns; simpl; [|done].
    destruct (cap_text c) as [nm|]; simpl; [|done].
    intros [= <- <-]. apply extracted_from_snoc. by apply Hacc.
Qed.

Lemma index_file_defs_with_index svc ix fp c l :
  index_file_defs (with_index svc ix) fp c l = index_file_defs svc fp c l.
Proof. done. Qed.

Lemma index_file_defs_extracted svc fp c l ds ns :
  index_file_defs svc fp c l = Some (ds, ns) → extracted_from fp (get_lang_family l) ds ns.
Proof.
  unfold index_file_defs.
  destruct (parsers svc !! l) as [language|]; simpl; [|done].
  destruct (parse language c) as [tree|]; simpl; [|done].
  destruct (queries svc !! l) as [query|].
  - destruct (collect_definitions fp (get_lang_family l) _) as [ds0 ns0] eqn:Hcol.
    intros [= <- <-].
    pose proof (collect_definitions_extracted fp (get_lang_family l)
                  (query_matches query tree c)) as Hex.
    by rewrite Hcol in Hex.
  - intros [= <- <-]. apply extracted_from_nil.
Qed.

Lemma batch_extract_extracted fp c l ds ns fp' :
  batch_extract fp c l = Some (ds, ns, fp') → fp' = fp ∧ extracted_from fp (get_lang_family l) ds ns.
Proof.
  unfold batch_extract.
  destruct (language_for_id l) as [g|]; simpl; [|done].
  destruct (set_language_ok (ts_language g)); simpl; [|done].
  destruct (parse (ts_language g) c) as [tree|]; simpl; [|done].
  destruct (query_new (ts_language g) (get_definition_query l)) as [q|]; simpl; [|done].
  destruct (collect_definitions_strict fp (get_lang_family l) _) as [[ds0 ns0]|] eqn:Hcol;
    simpl; [|done].
  intros [= <- <- <-]. split; [done|]. by eapply collect_definitions_strict_extracted.
Qed.

Lemma index_index_file svc fp c l :
  index (index_file svc fp c l) =
  match index_file_defs svc fp c l with
  | None => clear_file_ix (index svc) fp
  | Some (ds, ns) => add_file_defs (clear_file_ix (index svc) fp) fp ds ns
  end.
Proof.
  unfold index_file, clear_file. rewrite index_file_defs_with_index.
  by destruct (index_file_defs svc fp c l) as [[ds ns]|].
Qed.

Lemma batch_merge_invariant (Q : SymbolIndex → Prop) svc rs :
  Q (index svc) →
  (∀ ix ds ns fp, Q ix → (ds, ns, fp) ∈ rs → Q (add_file_defs (clear_file_ix ix fp) fp ds ns)) →
  Q (index (batch_merge svc rs)).
Proof.
  intros H0 Hstep. unfold batch_merge.
  apply (foldl_invariant (λ svc, Q (index svc))); [done|].
  intros svc' [[ds ns] fp] Hq Hin. simpl. by apply Hstep.
Qed.

Lemma index_register_language svc id language :
  index (register_language svc id language) = index svc.
Proof. unfold register_language. by destruct (set_language_ok language). Qed.

Lemma index_service_new : index service_new = SymbolIndex_default.
Proof. unfold service_new, init_languages. by rewrite !index_register_language. Qed.

(** Any property of index states that holds for the empty index and is kept
    by clear_file, clear_all and by "clear then insert a file's records"
    holds after every sequence of commands. *)
Lemma run_ops_invariant (Q : SymbolIndex → Prop) :
  Q SymbolIndex_default →
  (∀ ix f, Q ix → Q (clear_file_ix ix f)) →
  (∀ ix, Q ix → Q (clear_all_ix ix)) →
  (∀ ix f fam ds ns, Q ix → extracted_from f fam ds ns →
                     Q (add_file_defs (clear_file_ix ix f) f ds ns)) →
  ∀ ops, Q (index (run_ops service_new ops)).
Proof.
  intros H0 Hclear Hall Hadd ops. unfold run_ops.
  apply (foldl_invariant (λ svc, Q (index svc))); [by rewrite index_service_new|].
  intros svc op Hq _. destruct op as [fp c l|files|fp|]; simpl.
  - rewrite index_index_file.
    destruct (index_file_defs svc fp c l) as [[ds ns]|] eqn:Hd; [|by apply Hclear].
    eapply Hadd; [done|]. by eapply index_file_defs_extracted.
  - unfold index_files_batch. apply batch_merge_invariant; [done|].
    intros ix ds ns fp Hix Hin. apply list_elem_of_omap in Hin as ([[fp0 c] l] & _ & Hb).
    apply batch_extract_extracted in Hb as [-> Hex]. by eapply Hadd.
  - by apply Hclear.
  - by apply Hall.
Qed.

End ServiceLemmas.

Section Claims.
Context `{TS : TreeSitter}.

Lemma reachable_consistent ops : consistent (index (run_ops service_new ops)).
Proof.
  apply run_ops_invariant.
  - apply empty_consistent.
  - intros ix f Hc. by apply clear_file_ix_consistent.
  - intros ix _. apply empty_consistent.
  - intros ix f fam ds ns Hc Hex.
    destruct (clear_file_ix_consistent ix f Hc) as (Hc' & Hnone & Hno).
    by eapply add_file_defs_consistent.
Qed.

Lemma reachable_nonempty ops : reverse_entries_nonempty (index (run_ops service_new ops)).
Proof.
  apply run_ops_invariant.
  - apply empty_nonempty.
  - intros ix f Hne. by apply clear_file_ix_nonempty.
  - intros ix _. apply empty_nonempty.
  - intros ix f fam ds ns Hne _. by apply add_file_defs_nonempty, clear_file_ix_nonempty.
Qed.

Lemma find_definition_recs svc n fam :
  find_definition svc n fam = filter (λ r, lang_family r = fam) (recs (index svc) n).
Proof. unfold find_definition, find_definition_ix, recs. by destruct (definitions (index svc) !! n). Qed.

Lemma index_file_registry svc fp c l :
  index_file svc fp c l = with_index svc (index (index_file svc fp c l)).
Proof.
  unfold index_file, clear_file. rewrite index_file_defs_with_index.
  by destruct (index_file_defs svc fp c l) as [[ds ns]|].
Qed.

Lemma filter_iff_on (P1 P2 : SymbolInfo → Prop) `{!∀ x, Decision (P1 x), !∀ x, Decision (P2 x)}
    (l : list SymbolInfo) :
  (∀ x, x ∈ l → P1 x ↔ P2 x) → filter P1 l = filter P2 l.
Proof.
  intros Hiff. induction l as [|x l IH]; [done|].
  assert (Hx : P1 x ↔ P2 x) by (apply Hiff; apply elem_of_cons; by left).
  assert (Hl : filter P1 l = filter P2 l).
  { apply IH. intros y Hy. apply Hiff. apply elem_of_cons. by right. }
  rewrite !filter_cons, Hl.
  destruct (decide (P1 x)), (decide (P2 x)); tauto.
Qed.

Lemma filter_no_file (P : SymbolInfo → Prop) `{!∀ x, Decision (P x)} f (l : list SymbolInfo) :
  (∀ r, r ∈ l → file_path r ≠ f) → filter (λ r, file_path r = f) (filter P l) = [].
Proof.
  intros Hno. induction l as [|x l IH]; [done|].
  rewrite filter_cons. destruct (decide (P x)).
  - rewrite filter_cons_False.
    + apply IH. intros r Hr. apply Hno. apply elem_of_cons. by right.
    + apply Hno. apply elem_of_cons. by left.
  - apply IH. intros r Hr. apply Hno. apply elem_of_cons. by right.
Qed.

(** C1. Dual-map consistency: after any sequence of index_file,
    index_files_batch, clear_file and clear_all calls from the empty index
    (in particular any sequence of index_file, clear_file and clear_all),
    every name of file_definitions[f] has a record of file f in
    definitions[name], and a record of file f under a name n exists only if
    n belongs to file_definitions[f]. *)
Theorem reverse_index_consistency (ops : list Op) (f n : string) :
  let ix := index (run_ops service_new ops) in
  (∀ names, file_definitions ix !! f = Some names → n ∈ names →
     ∃ r, r ∈ default [] (definitions ix !! n) ∧ file_path r = f) ∧
  (∀ r, r ∈ default [] (definitions ix !! n) → file_path r = f →
     ∃ names, file_definitions ix !! f = Some names ∧ n ∈ names).
Proof.
  intros ix. pose proof (reachable_consistent ops f n) as Hc. fold ix in Hc.
  split.
  - intros names Hf Hn. apply Hc. eauto.
  - intros r Hr Hf. apply Hc. eauto.
Qed.

Lemma index_files_batch_app svc files1 files2 :
  index_files_batch svc (files1 ++ files2) = index_files_batch (index_files_batch svc files1) files2.
Proof. unfold index_files_batch, batch_merge. by rewrite omap_app, foldl_app. Qed.

Lemma batch_empty_file_absent svc fp c l ns :
  batch_extract fp c l = Some ([], ns, fp) →
  file_definitions (index (index_files_batch svc [(fp, c, l)])) !! fp = None.
Proof.
  intros Hb. unfold index_files_batch. simpl. rewrite Hb. simpl.
  apply batch_extract_extracted in Hb as [_ [_ Hns]].
  unfold add_file_defs. simpl. rewrite decide_True.
  - unfold clear_file. simpl. by rewrite file_definitions_clear_file_ix, lookup_delete_eq.
  - apply set_eq. intros n. rewrite Hns. split; [intros (r & Hr & _)|]; set_solver.
Qed.

Lemma batch_keeps_absent svc fp post :
  file_definitions (index svc) !! fp = None →
  Forall (λ '(fp', c', l'), fp' = fp → batch_extract fp' c' l' = None) post →
  file_definitions (index (index_files_batch svc post)) !! fp = None.
Proof.
  intros Hnone Hpost. revert svc Hnone.
  induction Hpost as [|[[fp' c'] l'] post Hx Hpost IH]; intros svc Hnone; [done|].
  change ((fp', c', l') :: post) with ([(fp', c', l')] ++ post). rewrite index_files_batch_app. apply IH.
  unfold index_files_batch. simpl.
  destruct (batch_extract fp' c' l') as [[[ds' ns'] fp'']|] eqn:Hb'; simpl; [|done].
  apply batch_extract_extracted in Hb' as Hx'. destruct Hx' as [-> _].
  assert (Hne : fp' ≠ fp). { intros ->. specialize (Hx eq_refl). congruence. }
  unfold add_file_defs, clear_file. simpl. case_decide.
  - by rewrite file_definitions_clear_file_ix, lookup_delete_ne by done.
  - by rewrite lookup_insert_ne, file_definitions_clear_file_ix, lookup_delete_ne by done.
Qed.

(** C10. After any sequence of index_file, index_files_batch, clear_file
    and clear_all calls from the empty index, every file_definitions entry
    is a non-empty set; and a file whose indexing yields no definition
    (including a parse that succeeds with zero captures) is absent from
    list_indexed_files right after index_file, and after any batch holding
    it, whatever files come before it, unless a later entry of the same
    batch indexes the same path successfully. *)
Theorem indexed_files_have_definitions (ops : list Op) :
  (∀ f names, file_definitions (index (run_ops service_new ops)) !! f = Some names →
              names ≠ ∅) ∧
  (∀ svc fp c l,
     default [] (fst <$> index_file_defs svc fp c l) = [] →
     fp ∉ list_indexed_files (index_file svc fp c l)) ∧
  (∀ svc pre fp c l ns post,
     batch_extract fp c l = Some ([], ns, fp) →
     Forall (λ '(fp', c', l'), fp' = fp → batch_extract fp' c' l' = None) post →
     fp ∉ list_indexed_files (index_files_batch svc (pre ++ (fp, c, l) :: post))).
Proof.
  split_and!.
  - apply reachable_nonempty.
  - intros svc fp c l Hnil. unfold list_indexed_files.
    rewrite list_elem_of_fmap. intros ([k v] & Hk & Hin). simpl in Hk. subst k.
    apply elem_of_map_to_list in Hin. simpl in Hin.
    revert Hin. rewrite index_index_file.
    destruct (index_file_defs svc fp c l) as [[ds ns]|] eqn:Hd; simpl in Hnil.
    + subst ds. apply index_file_defs_extracted in Hd as [_ Hns].
      unfold add_file_defs. simpl. rewrite decide_True.
      * rewrite file_definitions_clear_file_ix, lookup_delete_eq. done.
      * apply set_eq. intros n. rewrite Hns. split; [intros (r & Hr & _)|]; set_solver.
    + rewrite file_definitions_clear_file_ix, lookup_delete_eq. done.
  - intros svc pre fp c l ns post Hb Hpost. unfold list_indexed_files.
    rewrite list_elem_of_fmap. intros ([k v] & Hk & Hin). simpl in Hk. subst k.
    apply elem_of_map_to_list in Hin. revert Hin.
    rewrite index_files_batch_app.
    change ((fp, c, l) :: post) with ([(fp, c, l)] ++ post). rewrite index_files_batch_app.
    rewrite batch_keeps_absent; [done| |done].
    by apply (batch_empty_file_absent _ _ _ _ ns).
Qed.

(** C8. Clear locality: for every index state, clear_file(f) keeps every
    record of every other file g (even under a name f also defines) and
    keeps the file_definitions entry of g; what it removes are records with
    file_path = f and the file_definitions[f] entry. *)
Theorem clear_file_locality (svc : CodeNavigationService) (f : string) :
  let svc' := clear_file svc f in
  (∀ g n, g ≠ f →
     filter (λ r, file_path r = g) (default [] (definitions (index svc') !! n)) =
     filter (λ r, file_path r = g) (default [] (definitions (index svc) !! n))) ∧
  (∀ g, g ≠ f → file_definitions (index svc') !! g = file_definitions (index svc) !! g) ∧
  (∀ n, filter (λ r, file_path r ≠ f) (default [] (definitions (index svc') !! n)) =
        filter (λ r, file_path r ≠ f) (default [] (definitions (index svc) !! n))) ∧
  file_definitions (index svc') = delete f (file_definitions (index svc)).
Proof.
  intros svc'. unfold svc', clear_file. simpl.
  change (default [] (definitions ?ix !! ?n)) with (recs ix n).
  split_and!.
  - intros g n Hgf. rewrite recs_clear_file_ix.
    destruct (file_definitions (index svc) !! f) as [names|]; [|done].
    destruct (decide (n ∈ names)); [|done].
    rewrite list_filter_filter. apply list_filter_iff. intros r. split; [tauto|].
    intros Hr. split; [done|congruence].
  - intros g Hgf. rewrite file_definitions_clear_file_ix. by apply lookup_delete_ne.
  - intros n. rewrite recs_clear_file_ix.
    destruct (file_definitions (index svc) !! f) as [names|]; [|done].
    destruct (decide (n ∈ names)); [apply filter_idemp|done].
  - apply file_definitions_clear_file_ix.
Qed.

(** C7. find_definition(name, fam) is exactly the records of
    definitions[name] whose lang_family is fam, and [] when name is absent;
    records indexed under a language a carry a's family, so none is returned
    by a query under the family of a language b of another family. *)
Theorem find_definition_family_isolation (svc : CodeNavigationService) (n fam : string) :
  find_definition svc n fam =
    filter (λ r, lang_family r = fam) (default [] (definitions (index svc) !! n)) ∧
  (definitions (index svc) !! n = None → find_definition svc n fam = []) ∧
  (∀ fp c a ds ns r, index_file_defs svc fp c a = Some (ds, ns) → r ∈ ds →
     lang_family r = get_lang_family a) ∧
  (∀ a b r, get_lang_family a ≠ get_lang_family b → lang_family r = get_lang_family a →
     r ∉ find_definition svc n (get_lang_family b)).
Proof.
  split_and!.
  - apply find_definition_recs.
  - intros Hn. unfold find_definition, find_definition_ix. by rewrite Hn.
  - intros fp c a ds ns r Hd Hr. apply index_file_defs_extracted in Hd as [Hds _].
    by apply Hds.
  - intros a b r Hab Hr Hin. rewrite find_definition_recs in Hin.
    apply list_elem_of_filter in Hin as [Hfam _]. congruence.
Qed.

(** C2. Reindex replacement: from any state reached by a sequence of
    commands, index_file(f, C1, L) then index_file(f, C2, L) leaves, among
    the records of file f that find_definition returns, exactly the records
    indexing C2 produces (in order); when indexing C2 stops early (no
    parser for L or a failed parse) f contributes no record. *)
Theorem reindex_replaces (ops : list Op) (f c1 c2 l n fam : string) :
  let svc := run_ops service_new ops in
  let svc2 := index_file (index_file svc f c1 l) f c2 l in
  filter (λ r, file_path r = f) (find_definition svc2 n fam) =
    filter (λ r, name r = n ∧ lang_family r = fam)
           (default [] (fst <$> index_file_defs svc f c2 l)) ∧
  (index_file_defs svc f c2 l = None →
     filter (λ r, file_path r = f) (find_definition svc2 n fam) = []).
Proof.
  intros svc svc2.
  assert (Hmain : filter (λ r, file_path r = f) (find_definition svc2 n fam) =
    filter (λ r, name r = n ∧ lang_family r = fam)
           (default [] (fst <$> index_file_defs svc f c2 l))).
  { set (svc1 := index_file svc f c1 l).
    assert (Hc1 : consistent (index svc1)).
    { pose proof (reachable_consistent (ops ++ [OpIndexFile f c1 l])) as Hc.
      unfold run_ops in Hc. rewrite foldl_app in Hc. exact Hc. }
    destruct (clear_file_ix_consistent (index svc1) f Hc1) as (_ & _ & Hno).
    assert (Hreg : index_file_defs svc1 f c2 l = index_file_defs svc f c2 l).
    { unfold svc1. rewrite index_file_registry. apply index_file_defs_with_index. }
    unfold svc2. fold svc1. rewrite find_definition_recs, index_index_file, Hreg.
    destruct (index_file_defs svc f c2 l) as [[ds ns]|] eqn:Hd; simpl.
    - rewrite recs_add_file_defs, filter_app, filter_app.
      rewrite (filter_no_file _ f _ (Hno n)). simpl.
      apply index_file_defs_extracted in Hd as [Hds _].
      rewrite list_filter_filter, list_filter_filter.
      apply filter_iff_on. intros r Hin. pose proof (Hds r Hin) as [Hf _].
      split; [tauto|]. intros [Hr Hfam]. tauto.
    - rewrite (filter_no_file _ f _ (Hno n)). done. }
  split; [exact Hmain|]. intros Hnone. rewrite Hmain, Hnone. done.
Qed.

End Claims.

Section Registry.
Context `{TS : TreeSitter}.

Lemma parsers_register svc id lang l :
  parsers (register_language svc id lang) !! l =
  if set_language_ok lang && bool_decide (id = l) then Some lang else parsers svc !! l.
Proof.
  unfold register_language. destruct (set_language_ok lang); simpl; [|done].
  destruct (decide (id = l)) as [->|Hne].
  - rewrite bool_decide_eq_true_2 by done. apply lookup_insert_eq.
  - rewrite bool_decide_eq_false_2 by done. by apply lookup_insert_ne.
Qed.

Lemma queries_register svc id lang l :
  queries (register_language svc id lang) !! l =
  if set_language_ok lang && negb (String.eqb (get_definition_query id) "")
     && bool_decide (id = l) then
    match query_new lang (get_definition_query id) with
    | Some q => Some q
    | None => queries svc !! l
    end
  else queries svc !! l.
Proof.
  unfold register_language. destruct (set_language_ok lang); simpl; [|done].
  destruct (negb (String.eqb (get_definition_query id) "")); simpl; [|done].
  destruct (decide (id = l)) as [->|Hne].
  - rewrite bool_decide_eq_true_2 by done.
    destruct (query_new lang (get_definition_query l)); [apply lookup_insert_eq|done].
  - rewrite bool_decide_eq_false_2 by done.
    destruct (query_new lang (get_definition_query id)); [by apply lookup_insert_ne|done].
Qed.

Ltac registry_case :=
  repeat first [ rewrite bool_decide_eq_true_2 by (done || congruence)
               | rewrite bool_decide_eq_false_2 by (done || congruence) ];
  rewrite ?andb_false_r, ?andb_true_r; cbn;
  rewrite ?lookup_empty;
  repeat match goal with
  | |- context [set_language_ok ?L] => destruct (set_language_ok L)
  | |- context [query_new ?L ?q] => destruct (query_new L q)
  end; done.

Lemma service_new_registry l :
  parsers service_new !! l =
    (g ← language_for_id l;
     if set_language_ok (ts_language g) then Some (ts_language g) else None) ∧
  queries service_new !! l =
    (g ← language_for_id l;
     if set_language_ok (ts_language g) then query_new (ts_language g) (get_definition_query l)
     else None).
Proof.
  unfold service_new, init_languages. rewrite !parsers_register, !queries_register.
  destruct (decide (l = "python")) as [->|H1]; [split; registry_case|].
  destruct (decide (l = "rust")) as [->|H2]; [split; registry_case|].
  destruct (decide (l = "go")) as [->|H3]; [split; registry_case|].
  destruct (decide (l = "c")) as [->|H4]; [split; registry_case|].
  destruct (decide (l = "cpp")) as [->|H5]; [split; registry_case|].
  destruct (decide (l = "java")) as [->|H6]; [split; registry_case|].
  destruct (decide (l = "typescript")) as [->|H7]; [split; registry_case|].
  destruct (decide (l = "javascript")) as [->|H8]; [split; registry_case|].
  assert (Hl : language_for_id l = None).
  { unfold language_for_id.
    rewrite (proj2 (String.eqb_neq l _) H1), (proj2 (String.eqb_neq l _) H2),
      (proj2 (String.eqb_neq l _) H3), (proj2 (String.eqb_neq l _) H4),
      (proj2 (String.eqb_neq l _) H5), (proj2 (String.eqb_neq l _) H6),
      (proj2 (String.eqb_neq l _) H7), (proj2 (String.eqb_neq l _) H8). done. }
  rewrite Hl. split; registry_case.
Qed.

End Registry.

Section BatchEquivalence.
Context `{TS : TreeSitter}.

Lemma collect_strict_lenient fp fam ms :
  Forall (λ c, is_Some (cap_text c)) (concat ms) →
  collect_definitions_strict fp fam ms = Some (collect_definitions fp fam ms).
Proof.
  unfold collect_definitions_strict, collect_definitions.
  generalize (concat ms) as cs. intros cs.
  generalize (@nil SymbolInfo, (∅ : gset string)) as acc.
  induction cs as [|c cs IH]; intros [ds ns] Hall; simpl; [done|].
  apply Forall_cons in Hall as [[nm Hnm] Hall]. rewrite Hnm. simpl. by apply IH.
Qed.

Lemma batch_extract_registered fp c l language q t :
  parsers service_new !! l = Some language →
  queries service_new !! l = Some q →
  parse language c = Some t →
  Forall (λ cap, is_Some (cap_text cap)) (concat (query_matches q t c)) →
  batch_extract fp c l =
    Some ((collect_definitions fp (get_lang_family l) (query_matches q t c)).1,
          (collect_definitions fp (get_lang_family l) (query_matches q t c)).2, fp).
Proof.
  intros Hp Hq Ht Hall. destruct (service_new_registry l) as [Hp' Hq'].
  rewrite Hp in Hp'. rewrite Hq in Hq'. unfold batch_extract.
  destruct (language_for_id l) as [g|]; simpl in *; [|done].
  destruct (set_language_ok (ts_language g)); simpl in *; [|done].
  injection Hp' as ->. rewrite Ht. simpl. rewrite <- Hq'. simpl.
  rewrite collect_strict_lenient by done.
  by destruct (collect_definitions fp (get_lang_family l) (query_matches q t c)).
Qed.

Lemma index_file_registered ix fp c l language q t :
  parsers service_new !! l = Some language →
  queries service_new !! l = Some q →
  parse language c = Some t →
  index_file (with_index service_new ix) fp c l =
    with_index service_new
      (add_file_defs (clear_file_ix ix fp) fp
         (collect_definitions fp (get_lang_family l) (query_matches q t c)).1
         (collect_definitions fp (get_lang_family l) (query_matches q t c)).2).
Proof.
  intros Hp Hq Ht. unfold index_file, clear_file, index_file_defs. simpl.
  rewrite Hp. simpl. rewrite Ht. simpl. rewrite Hq.
  by destruct (collect_definitions fp (get_lang_family l) (query_matches q t c)).
Qed.

(** C4. Batch/sequential equivalence: when every triple names a language
    with a registered parser and definition query, its content parses and
    every captured node's text decodes, index_files_batch leaves the index
    (definitions and file_definitions) exactly as index_file applied to each
    triple in list order.  Distinct file paths are not needed. *)
Theorem batch_sequential_equivalence (ix : SymbolIndex) (files : list (string * string * string)) :
  Forall (λ '(fp, c, l), ∃ language q t,
            parsers service_new !! l = Some language ∧
            queries service_new !! l = Some q ∧
            parse language c = Some t ∧
            Forall (λ cap, is_Some (cap_text cap)) (concat (query_matches q t c))) files →
  index (index_files_batch (with_index service_new ix) files) =
  index (foldl (λ svc '(fp, c, l), index_file svc fp c l) (with_index service_new ix) files).
Proof.
  revert ix. induction files as [|[[fp c] l] files IH]; intros ix Hall; [done|].
  apply Forall_cons in Hall as [(language & q & t & Hp & Hq & Ht & Hcap) Hall].
  unfold index_files_batch. simpl.
  rewrite (batch_extract_registered fp c l language q t) by done. simpl.
  rewrite (index_file_registered ix fp c l language q t) by done.
  apply (IH _ Hall).
Qed.

End BatchEquivalence.

Section ScenarioClaims.

(** C3. Reference-validation scenarios on a TypeScript file: on
    [const foo = "foo is here";] validating [foo] yields one reference, the
    declaration identifier (columns 7 to 10), none inside the string; on
    [obj.value = value;] validating [value] yields one reference, the
    right-hand identifier (columns 13 to 18), not the property name; on
    [import { original as renamed } from "x"; renamed();] validating
    [original] yields none, and validating [renamed] yields two, the import
    alias (columns 22 to 29) and the callee (columns 42 to 49).  The trees
    are those of tree-sitter-typescript's TSX grammar. *)
Theorem reference_validation_scenarios :
  TsxScenarios.validate TsxScenarios.tree_decl TsxScenarios.src_decl "foo" =
    [TsxScenarios.reference_at "foo" 7 10] ∧
  TsxScenarios.validate TsxScenarios.tree_member TsxScenarios.src_member "value" =
    [TsxScenarios.reference_at "value" 13 18] ∧
  TsxScenarios.validate TsxScenarios.tree_import TsxScenarios.src_import "original" = [] ∧
  TsxScenarios.validate TsxScenarios.tree_import TsxScenarios.src_import "renamed" =
    [TsxScenarios.reference_at "renamed" 22 29; TsxScenarios.reference_at "renamed" 42 49].
Proof. split_and!; vm_compute; reflexivity. Qed.

End ScenarioClaims.

Section HostClaims.
Context `{TS : TreeSitter} `{H : Host}.

Lemma with_index_clear_all svc ix :
  with_index (clear_all svc) ix = with_index svc ix.
Proof. done. Qed.


(** C6. Persistence round-trip: when the snapshot serializes and the JSON
    text deserializes back to the same value, a successful save_index for
    [root] followed by clear_all and load_index for [root] (files untouched
    in between) returns true and restores the service exactly, both index
    maps included, and leaves the files as the save wrote them. *)
Theorem persistence_round_trip (svc : CodeNavigationService) (fs fs1 : Fs) (root : string)
    (timestamps : gmap string Z) (now : Z) :
  (∀ p j, json_to_string p = Some j → json_from_str j = Some p) →
  code_nav_save_index svc fs root timestamps now = (Ok (), fs1) →
  code_nav_load_index (clear_all svc) fs1 root = (Ok true, svc, fs1).
Proof.
  intros Hrt. unfold code_nav_save_index, code_nav_load_index.
  destruct (get_index_path root) as [path|]; [|done].
  match goal with |- context [json_to_string ?p] =>
    destruct (json_to_string p) as [j|] eqn:Hj; [|done] end.
  intros [= <-]. rewrite lookup_insert_eq, (Hrt _ _ Hj). simpl.
  rewrite String.eqb_refl. simpl.
  by destruct svc as [ps ls qs [defs fd]].
Qed.

(** C9. When the text search itself fails, find_references_hybrid returns
    no reference and the command succeeds with the empty list, leaving the
    service (and so the index) unchanged. *)
Theorem search_error_no_references (svc : CodeNavigationService)
    (symbol_name fam root : string) (e : string) :
  search_content 500 100 ("\b" ++ regex_escape symbol_name ++ "\b")%string root = Err e →
  find_references_hybrid svc symbol_name fam root = [] ∧
  code_nav_find_references_hybrid svc symbol_name fam root = (Ok [], svc).
Proof.
  intros He. unfold code_nav_find_references_hybrid, find_references_hybrid.
  by rewrite He.
Qed.

End HostClaims.

(** ** The theorems applied to the concrete system of [Toy] *)
Module Witnesses.
Import Toy.
#[local] Existing Instance toy_ts.
#[local] Existing Instance toy_host.

Lemma batch_sequential_equivalence_witness :
  Forall (λ '(fp, c, l), ∃ language q t,
            parsers service_new !! l = Some language ∧
            queries service_new !! l = Some q ∧
            parse language c = Some t ∧
            Forall (λ cap, is_Some (cap_text cap)) (concat (query_matches q t c)))
    [("a.py", "def foo(): pass", "python"); ("b.rs", "fn foo() {}", "rust");
     ("a.py", "def bar(): pass", "python")] ∧
  index (index_files_batch (with_index service_new SymbolIndex_default)
           [("a.py", "def foo(): pass", "python"); ("b.rs", "fn foo() {}", "rust");
            ("a.py", "def bar(): pass", "python")]) =
  index (foldl (λ svc '(fp, c, l), index_file svc fp c l) (with_index service_new SymbolIndex_default)
           [("a.py", "def foo(): pass", "python"); ("b.rs", "fn foo() {}", "rust");
            ("a.py", "def bar(): pass", "python")]).
Proof.
  assert (Hf : Forall (λ '(fp, c, l), ∃ language q t,
            parsers service_new !! l = Some language ∧
            queries service_new !! l = Some q ∧
            parse language c = Some t ∧
            Forall (λ cap, is_Some (cap_text cap)) (concat (query_matches q t c)))
    [("a.py", "def foo(): pass", "python"); ("b.rs", "fn foo() {}", "rust");
     ("a.py", "def bar(): pass", "python")]).
  { repeat constructor; do 3 eexists; split_and!; vm_compute; try reflexivity;
      repeat constructor; eexists; reflexivity. }
  split; [exact Hf|]. apply (batch_sequential_equivalence SymbolIndex_default _ Hf).
Defined.



Lemma persistence_round_trip_witness :
  (∀ p j, json_to_string p = Some j → json_from_str j = Some p) ∧
  code_nav_save_index toy_service ∅ "/proj" ∅ 0 =
    (Ok (), (code_nav_save_index toy_service ∅ "/proj" ∅ 0).2) ∧
  code_nav_load_index (clear_all toy_service) (code_nav_save_index toy_service ∅ "/proj" ∅ 0).2
    "/proj" = (Ok true, toy_service, (code_nav_save_index toy_service ∅ "/proj" ∅ 0).2).
Proof.
  assert (Hrt : ∀ p j, json_to_string p = Some j → json_from_str j = Some p).
  { intros p j Hj. simpl in *. congruence. }
  assert (Hs : code_nav_save_index toy_service ∅ "/proj" ∅ 0 =
                 (Ok (), (code_nav_save_index toy_service ∅ "/proj" ∅ 0).2)) by reflexivity.
  split_and!; [exact Hrt|exact Hs|].
  exact (persistence_round_trip toy_service ∅ _ "/proj" ∅ 0 Hrt Hs).
Defined.

Lemma search_error_no_references_witness :
  search_content 500 100 ("\b" ++ regex_escape "foo" ++ "\b")%string "/proj" = Err "search failed" ∧
  find_references_hybrid toy_service "foo" "python" "/proj" = [] ∧
  code_nav_find_references_hybrid toy_service "foo" "python" "/proj" = (Ok [], toy_service).
Proof.
  assert (He : search_content 500 100 ("\b" ++ regex_escape "foo" ++ "\b")%string "/proj"
                 = Err "search failed") by reflexivity.
  split; [exact He|]. exact (search_error_no_references toy_service "foo" "python" "/proj" _ He).
Defined.

End Witnesses.

(** ** More properties of the indexer *)

Section ExtraIndexLemmas.
Context `{TS : TreeSitter}.

Lemma symbol_index_eq (a b : SymbolIndex) :
  definitions a = definitions b → file_definitions a = file_definitions b → a = b.
Proof. destruct a, b; simpl; by intros -> ->. Qed.

Lemma clear_entry_some f l :
  clear_entry f (Some l) =
  match filter (λ s, file_path s ≠ f) l with [] => None | l' => Some l' end.
Proof. done. Qed.

Lemma clear_entry_idemp f o : clear_entry f (clear_entry f o) = clear_entry f o.
Proof.
  destruct o as [l|]; [|done]. rewrite clear_entry_some.
  destruct (filter _ l) as [|x xs] eqn:Hf; [done|].
  rewrite clear_entry_some, <- Hf, filter_idemp, Hf. done.
Qed.

Lemma clear_entry_twice f g l :
  clear_entry f (clear_entry g (Some l)) =
  match filter (λ s, file_path s ≠ f ∧ file_path s ≠ g) l with [] => None | l' => Some l' end.
Proof.
  rewrite clear_entry_some. rewrite <- list_filter_filter.
  destruct (filter (λ s, file_path s ≠ g) l) as [|x xs]; [done|]. done.
Qed.

Lemma clear_entry_comm f g o :
  clear_entry f (clear_entry g o) = clear_entry g (clear_entry f o).
Proof.
  destruct o as [l|]; [|done]. rewrite !clear_entry_twice.
  rewrite (list_filter_iff (λ s, file_path s ≠ f ∧ file_path s ≠ g)
                           (λ s, file_path s ≠ g ∧ file_path s ≠ f)); [done|]. tauto.
Qed.

Lemma clear_entry_not_nil f o : clear_entry f o ≠ Some [].
Proof. destruct o as [l|]; [|done]. rewrite clear_entry_some. by destruct (filter _ l). Qed.

Lemma lookup_clear_name f defs nm n :
  clear_name f defs nm !! n = if decide (n = nm) then clear_entry f (defs !! n) else defs !! n.
Proof.
  unfold clear_name. destruct (decide (n = nm)) as [->|Hne].
  - destruct (defs !! nm) as [symbols|] eqn:Hd; rewrite ?Hd; [|done].
    rewrite clear_entry_some. destruct (filter _ symbols).
    + by rewrite lookup_delete_eq.
    + by rewrite lookup_insert_eq.
  - destruct (defs !! nm) as [symbols|]; [|done]. destruct (filter _ symbols).
    + by rewrite lookup_delete_ne.
    + by rewrite lookup_insert_ne.
Qed.

Lemma lookup_clear_names f defs (l : list string) n :
  foldr (λ nm defs, clear_name f defs nm) defs l !! n =
  if decide (n ∈ l) then clear_entry f (defs !! n) else defs !! n.
Proof.
  induction l as [|x l IH].
  - rewrite decide_False; [done|]. apply not_elem_of_nil.
  - cbn [foldr]. rewrite lookup_clear_name, IH.
    destruct (decide (n = x)) as [->|Hne].
    + rewrite (decide_True _ _ (proj2 (elem_of_cons _ _ _) (or_introl eq_refl))).
      destruct (decide (x ∈ l)); [apply clear_entry_idemp|done].
    + destruct (decide (n ∈ x :: l)) as [Hin|Hin];
        destruct (decide (n ∈ l)) as [Hin'|Hin']; try done.
      * exfalso. apply elem_of_cons in Hin. tauto.
      * exfalso. apply Hin. apply elem_of_cons. by right.
Qed.

Lemma lookup_clear_file_ix ix f n :
  definitions (clear_file_ix ix f) !! n =
  match file_definitions ix !! f with
  | Some names => if decide (n ∈ names) then clear_entry f (definitions ix !! n)
                  else definitions ix !! n
  | None => definitions ix !! n
  end.
Proof.
  unfold clear_file_ix. destruct (file_definitions ix !! f) as [names|]; [|done].
  simpl. unfold set_fold. simpl. rewrite lookup_clear_names.
  destruct (decide (n ∈ elements names)) as [Hin|Hin];
    rewrite elem_of_elements in Hin;
    [rewrite decide_True by done|rewrite decide_False by done]; done.
Qed.

Lemma clear_file_ix_absent ix f :
  file_definitions ix !! f = None → clear_file_ix ix f = ix.
Proof. unfold clear_file_ix. by intros ->. Qed.

Lemma clear_file_ix_idemp ix f : clear_file_ix (clear_file_ix ix f) f = clear_file_ix ix f.
Proof.
  apply clear_file_ix_absent. rewrite file_definitions_clear_file_ix.
  apply lookup_delete_eq.
Qed.

Lemma clear_file_ix_comm ix f g :
  clear_file_ix (clear_file_ix ix f) g = clear_file_ix (clear_file_ix ix g) f.
Proof.
  destruct (decide (f = g)) as [->|Hfg]; [done|].
  apply symbol_index_eq.
  - apply map_eq. intros n. rewrite !lookup_clear_file_ix, !file_definitions_clear_file_ix.
    rewrite (lookup_delete_ne _ f g) by done. rewrite (lookup_delete_ne _ g f) by congruence.
    destruct (file_definitions ix !! f) as [nf|], (file_definitions ix !! g) as [ng|];
      try done.
    destruct (decide (n ∈ nf)), (decide (n ∈ ng)); rewrite ?lookup_clear_file_ix; try done.
    apply clear_entry_comm.
  - rewrite !file_definitions_clear_file_ix. apply delete_delete.
Qed.

Lemma lookup_push_symbols (d : gmap string (list SymbolInfo)) (ds : list SymbolInfo) n :
  foldl push_symbol d ds !! n =
  match filter (λ s, name s = n) ds with
  | [] => d !! n
  | l => Some (default [] (d !! n) ++ l)
  end.
Proof.
  revert d. induction ds as [|s ds IH]; intros d; [done|]. simpl. rewrite IH.
  unfold push_symbol. rewrite filter_cons.
  destruct (decide (name s = n)) as [<-|Hne].
  - rewrite lookup_insert_eq. simpl.
    destruct (filter _ ds); simpl; by rewrite ?app_nil_r, <- ?app_assoc.
  - by rewrite lookup_insert_ne.
Qed.

Lemma entries_nonempty_clear_file_ix ix f :
  entries_nonempty ix → entries_nonempty (clear_file_ix ix f).
Proof.
  intros Hne n. rewrite lookup_clear_file_ix.
  destruct (file_definitions ix !! f); [|apply Hne].
  case_decide; [apply clear_entry_not_nil|apply Hne].
Qed.

Lemma entries_nonempty_add_file_defs ix f ds ns :
  entries_nonempty ix → entries_nonempty (add_file_defs ix f ds ns).
Proof.
  intros Hne n. unfold add_file_defs. simpl. rewrite lookup_push_symbols.
  destruct (filter _ ds) as [|x xs]; [apply Hne|].
  intros [= Hl]. by destruct (default [] (definitions ix !! n)).
Qed.

Lemma reachable_entries_nonempty ops : entries_nonempty (index (run_ops service_new ops)).
Proof.
  apply run_ops_invariant.
  - intros n. simpl. by rewrite lookup_empty.
  - intros ix f Hne. by apply entries_nonempty_clear_file_ix.
  - intros ix _ n. simpl. by rewrite lookup_empty.
  - intros ix f fam ds ns Hne _.
    by apply entries_nonempty_add_file_defs, entries_nonempty_clear_file_ix.
Qed.

Lemma filter_file_all (P : SymbolInfo → Prop) `{!∀ x, Decision (P x)} (l : list SymbolInfo) :
  Forall P l → filter P l = l.
Proof.
  induction 1 as [|x l Hx Hl IH]; [done|]. rewrite filter_cons_True by done. by rewrite IH.
Qed.

Lemma filter_file_none (P : SymbolInfo → Prop) `{!∀ x, Decision (P x)} (l : list SymbolInfo) :
  Forall (λ x, ¬ P x) l → filter P l = [].
Proof.
  induction 1 as [|x l Hx Hl IH]; [done|]. rewrite filter_cons_False by done. done.
Qed.

(** Clearing a file right after indexing it, from an index without records
    of that file, gives the index back. *)
Lemma clear_add_file_defs ix f fam ds ns :
  consistent ix → entries_nonempty ix →
  file_definitions ix !! f = None →
  (∀ n r, r ∈ recs ix n → file_path r ≠ f) →
  extracted_from f fam ds ns →
  clear_file_ix (add_file_defs ix f ds ns) f = ix.
Proof.
  intros Hc Hne Hnone Hno [Hds Hns]. unfold add_file_defs.
  destruct (decide (ns = ∅)) as [Hempty|Hnonempty].
  - assert (ds = []) as ->.
    { destruct ds as [|r ds]; [done|]. exfalso.
      assert (Hr : name r ∈ ns) by (apply Hns; exists r; split; [apply elem_of_cons; by left|done]).
      rewrite Hempty in Hr. set_solver. }
    simpl. destruct ix. by apply clear_file_ix_absent.
  - unfold clear_file_ix. simpl. rewrite lookup_insert_eq. apply symbol_index_eq; simpl.
    + apply map_eq. intros n. unfold set_fold. simpl. rewrite lookup_clear_names.
      rewrite lookup_push_symbols.
      destruct (decide (n ∈ elements ns)) as [Hin|Hin]; rewrite elem_of_elements in Hin.
      * destruct (Hns n) as [Hn _]. destruct (Hn Hin) as (r & Hr & Hrn).
        assert (Hf : filter (λ s, name s = n) ds ≠ []).
        { intros Hf. eapply filter_nil_not_elem_of; [exact Hf|exact Hrn|exact Hr]. }
        destruct (filter (λ s, name s = n) ds) as [|x xs] eqn:Hfl; [done|].
        rewrite clear_entry_some, filter_app.
        assert (HF : filter (λ s, file_path s ≠ f) (x :: xs) = []).
        { apply filter_file_none. apply Forall_forall. intros y Hy.
          rewrite <- Hfl in Hy.
          apply list_elem_of_filter in Hy as [_ Hy]. apply Hds in Hy as [-> _]. tauto. }
        rewrite HF, app_nil_r.
        assert (HL : filter (λ s, file_path s ≠ f) (default [] (definitions ix !! n))
                     = default [] (definitions ix !! n)).
        { apply filter_file_all. apply Forall_forall. intros y Hy.
          by apply (Hno n). }
        rewrite HL. specialize (Hne n).
        destruct (definitions ix !! n) as [[|z zs]|]; done.
      * destruct (filter (λ s, name s = n) ds) as [|x xs] eqn:Hfl; [done|].
        exfalso. apply Hin. apply Hns. exists x.
        assert (Hx : x ∈ filter (λ s, name s = n) ds) by (rewrite Hfl; apply elem_of_cons; by left).
        apply list_elem_of_filter in Hx as [Hx1 Hx2]. done.
    + rewrite delete_insert_eq. by apply delete_id.
Qed.

Lemma clear_after_index_ix ix f fam ds ns :
  consistent ix → entries_nonempty ix → extracted_from f fam ds ns →
  clear_file_ix (add_file_defs (clear_file_ix ix f) f ds ns) f = clear_file_ix ix f.
Proof.
  intros Hc Hne Hex. destruct (clear_file_ix_consistent ix f Hc) as (Hc' & Hnone & Hno).
  eapply clear_add_file_defs; try done. by apply entries_nonempty_clear_file_ix.
Qed.

End ExtraIndexLemmas.

Section ExtraIndexClaims.
Context `{TS : TreeSitter}.

Lemma index_file_unfold svc f c l :
  index_file svc f c l =
  with_index svc (match index_file_defs svc f c l with
                  | None => clear_file_ix (index svc) f
                  | Some (ds, ns) => add_file_defs (clear_file_ix (index svc) f) f ds ns
                  end).
Proof. by rewrite index_file_registry, index_index_file. Qed.

Lemma clear_after_index_reachable ops f c l :
  clear_file_ix (index (index_file (run_ops service_new ops) f c l)) f =
  clear_file_ix (index (run_ops service_new ops)) f.
Proof.
  rewrite index_index_file.
  destruct (index_file_defs _ f c l) as [[ds ns]|] eqn:Hd; [|apply clear_file_ix_idemp].
  eapply clear_after_index_ix.
  - apply reachable_consistent.
  - apply reachable_entries_nonempty.
  - by eapply index_file_defs_extracted.
Qed.

(** clear_file is idempotent. *)
Theorem clear_file_idempotent (svc : CodeNavigationService) (f : string) :
  clear_file (clear_file svc f) f = clear_file svc f.
Proof. unfold clear_file. simpl. by rewrite clear_file_ix_idemp. Qed.

(** Clearing two files gives the same service in either order. *)
Theorem clear_file_commute (svc : CodeNavigationService) (f g : string) :
  clear_file (clear_file svc f) g = clear_file (clear_file svc g) f.
Proof. unfold clear_file. simpl. by rewrite clear_file_ix_comm. Qed.

(** From any reachable state, indexing a file and then clearing it gives
    the same service as clearing it directly: clear_file removes exactly
    what index_file added, and leaves no empty entry behind. *)
Theorem clear_undoes_index_file (ops : list Op) (f c l : string) :
  clear_file (index_file (run_ops service_new ops) f c l) f =
  clear_file (run_ops service_new ops) f.
Proof.
  unfold clear_file. rewrite clear_after_index_reachable.
  rewrite index_file_registry. reflexivity.
Qed.

(** From any reachable state, indexing the same file with the same content
    twice gives the same service as indexing it once. *)
Theorem index_file_idempotent (ops : list Op) (f c l : string) :
  index_file (index_file (run_ops service_new ops) f c l) f c l =
  index_file (run_ops service_new ops) f c l.
Proof.
  rewrite (index_file_unfold (index_file _ f c l)).
  rewrite clear_after_index_reachable.
  rewrite (index_file_registry (run_ops service_new ops) f c l) at 2.
  rewrite index_file_defs_with_index.
  rewrite (index_file_unfold (run_ops service_new ops)). reflexivity.
Qed.

End ExtraIndexClaims.

(** ** Language detection and the hybrid reference search *)

Section ExtraSearchLemmas.

Lemma string_app_cons x (a b : string) : (String x a ++ b)%string = String x (a ++ b)%string.
Proof. reflexivity. Qed.

Lemma string_app_nil_l (a : string) : ("" ++ a)%string = a.
Proof. reflexivity. Qed.

Lemma string_app_assoc (a b c : string) : ((a ++ b) ++ c)%string = (a ++ (b ++ c))%string.
Proof. induction a as [|x a IH]; [done|]. rewrite !string_app_cons. by f_equal. Qed.

Lemma last_segment_dot (p ext acc : string) :
  last_segment (p ++ String "." ext) acc = last_segment ext "".
Proof.
  revert acc. induction p as [|c p IH]; intros acc; [reflexivity|].
  rewrite string_app_cons. simpl. by destruct (Ascii.eqb c ".").
Qed.

Lemma last_segment_nodot (ext acc : string) :
  Forall (λ c, c ≠ "."%char) (String.list_ascii_of_string ext) →
  last_segment ext acc = (acc ++ ext)%string.
Proof.
  revert acc. induction ext as [|c ext IH]; intros acc Hd; simpl.
  - induction acc as [|x acc IHa]; [done|]. rewrite string_app_cons. by f_equal.
  - apply Forall_cons in Hd as [Hc Hd].
    destruct (Ascii.eqb c ".") eqn:Hcd; [apply Ascii.eqb_eq in Hcd; congruence|].
    rewrite IH by done. by rewrite string_app_assoc.
Qed.

Lemma ascii_lower_idemp (c : ascii) : ascii_lower (ascii_lower c) = ascii_lower c.
Proof. destruct c as [[] [] [] [] [] [] [] []]; vm_compute; reflexivity. Qed.

Lemma to_lowercase_idemp (s : string) : to_lowercase (to_lowercase s) = to_lowercase s.
Proof. induction s as [|c s IH]; simpl; [done|]. by rewrite ascii_lower_idemp, IH. Qed.

Lemma get_lang_id_from_path_ext (p : string) :
  get_lang_id_from_path p = get_lang_id_from_path (to_lowercase (last_segment p "")).
Proof.
  unfold get_lang_id_from_path at 2. rewrite (last_segment_nodot (to_lowercase _)).
  - by rewrite string_app_nil_l, to_lowercase_idemp.
  - (* the last segment holds no dot, nor does its lowercase *)
    assert (Hseg : ∀ s acc, Forall (λ c, c ≠ "."%char) (String.list_ascii_of_string acc) →
              Forall (λ c, c ≠ "."%char) (String.list_ascii_of_string (last_segment s acc))).
    { induction s as [|c s IH]; intros acc Hacc; simpl; [done|].
      destruct (Ascii.eqb c ".") eqn:Hcd; apply IH; [constructor|].
      induction acc as [|x acc IHa]; simpl in *.
      - constructor; [|constructor]. intros ->. done.
      - apply Forall_cons in Hacc as [Hx Hacc]. constructor; [done|by apply IHa]. }
    assert (Hlow : ∀ s, Forall (λ c, c ≠ "."%char) (String.list_ascii_of_string s) →
              Forall (λ c, c ≠ "."%char) (String.list_ascii_of_string (to_lowercase s))).
    { induction s as [|c s IH]; intros Hs; simpl; [done|].
      apply Forall_cons in Hs as [Hc Hs]. constructor; [|by apply IH].
      revert Hc. destruct c as [[] [] [] [] [] [] [] []]; vm_compute; congruence. }
    apply Hlow, Hseg. constructor.
Qed.

Lemma validate_shape root src ln sym l fp fam :
  Forall (λ r, name r = sym ∧ kind r = "reference" ∧ file_path r = fp ∧ lang_family r = fam ∧
               start_line r = as_u32 ln ∧ end_line r = as_u32 ln)
         (validate_reference_at_line root src ln sym l fp fam).
Proof.
  apply Forall_forall. intros r Hr. unfold validate_reference_at_line in Hr.
  apply list_elem_of_omap in Hr as (col & _ & Hr).
  repeat case_match; simplify_eq; done.
Qed.

End ExtraSearchLemmas.

Section ExtraSearchClaims.

(** The language id of a path depends only on the text after its last dot,
    compared case-insensitively; a path without a dot is compared whole. *)
Theorem lang_id_from_last_extension (p ext : string) :
  Forall (λ c, c ≠ "."%char) (String.list_ascii_of_string ext) →
  get_lang_id_from_path (p ++ String "." ext) = get_lang_id_from_path (to_lowercase ext) ∧
  get_lang_id_from_path ext = get_lang_id_from_path (to_lowercase ext).
Proof.
  intros Hd. rewrite !(get_lang_id_from_path_ext (p ++ _)), (get_lang_id_from_path_ext ext).
  rewrite last_segment_dot, !last_segment_nodot by done.
  rewrite string_app_nil_l. by split.
Qed.

(** Every language id the hybrid search derives from a path has a grammar
    and a known language family. *)
Theorem lang_id_from_path_supported (p : string) :
  match get_lang_id_from_path p with
  | Some l => is_Some (language_for_id l) ∧ get_lang_family l ≠ "unknown"
  | None => True
  end.
Proof.
  unfold get_lang_id_from_path.
  repeat match goal with |- context [if ?b then _ else _] => destruct b end;
    split; (eexists; reflexivity) || discriminate || done.
Qed.

Context `{TS : TreeSitter} `{H : Host}.

(** Every reference the hybrid search returns carries the symbol name, the
    kind "reference" and the requested language family, and comes from a
    file reported by the text search whose extension maps to a language of
    that family. *)
Theorem find_references_hybrid_sound (svc : CodeNavigationService) (sym fam root : string) :
  Forall (λ r, name r = sym ∧ kind r = "reference" ∧ lang_family r = fam ∧
     ∃ results res l,
       search_content 500 100 ("\b" ++ regex_escape sym ++ "\b")%string root = Ok results ∧
       res ∈ results ∧ file_path r = result_file_path res ∧
       get_lang_id_from_path (result_file_path res) = Some l ∧ get_lang_family l = fam)
    (find_references_hybrid svc sym fam root).
Proof.
  unfold find_references_hybrid.
  destruct (search_content 500 100 _ root) as [results|e] eqn:Hs; [|constructor].
  apply Forall_forall. intros r Hr. apply list_elem_of_In, in_flat_map in Hr as (res & Hres & Hr).
  apply list_elem_of_In in Hres, Hr. unfold references_in_result in Hr.
  destruct (get_lang_id_from_path (result_file_path res)) as [l|] eqn:Hl;
    [|by apply elem_of_nil in Hr].
  destruct (String.eqb (get_lang_family l) fam) eqn:Hfam; simpl in Hr;
    [|by apply elem_of_nil in Hr].
  apply String.eqb_eq in Hfam.
  repeat (case_match; simpl in Hr; try by apply elem_of_nil in Hr).
  apply list_elem_of_In, in_flat_map in Hr as (m & _ & Hr). apply list_elem_of_In in Hr.
  pose proof (proj1 (Forall_forall _ _) (validate_shape _ _ _ _ _ _ _) r Hr)
    as (Hn & Hk & Hf & Hfa & _).
  split_and!; try done. exists results, res, l. done.
Qed.

End ExtraSearchClaims.

(** ** Snapshot commands *)

Section ExtraPersistence.
Context `{TS : TreeSitter} `{H : Host} `{RF : RemoveFile}.

(** After a successful save for [root], the metadata command for any root
    whose snapshot path is the same one reports the current version, the
    saved root, the save time, the number of indexed files, the number of
    stored definitions and the given timestamps; the requested root itself
    is not compared with the stored one. *)
Theorem save_then_metadata (svc : CodeNavigationService) (fs fs1 : Fs) (root root' : string)
    (timestamps : gmap string Z) (now : Z) :
  (∀ p j, json_to_string p = Some j → json_from_str j = Some p) →
  code_nav_save_index svc fs root timestamps now = (Ok (), fs1) →
  get_index_path root' = get_index_path root →
  code_nav_get_index_metadata fs1 root' =
    Ok (Some (mkIndexMetadata INDEX_VERSION root now
                (size (file_definitions (index svc)))
                (definition_total (definitions (index svc)))
                timestamps)).
Proof.
  intros Hrt. unfold code_nav_save_index, code_nav_get_index_metadata.
  destruct (get_index_path root) as [path|]; [|done].
  match goal with |- context [json_to_string ?p] =>
    destruct (json_to_string p) as [j|] eqn:Hj; [|done] end.
  intros [= <-] ->. rewrite lookup_insert_eq, (Hrt _ _ Hj). done.
Qed.

(** Deleting the snapshot of a root either succeeds, having removed
    exactly that file (nothing happens when it is absent), after which a
    load reports false and leaves the service as it is and the metadata
    command reports no snapshot; or it fails and the files are unchanged. *)
Theorem delete_then_absent (svc : CodeNavigationService) (fs fs' : Fs) (root path : string)
    (r : Result unit string) :
  get_index_path root = Some path →
  code_nav_delete_index fs root = (r, fs') →
  (r = Ok () → fs' = delete path fs ∧
     code_nav_load_index svc fs' root = (Ok false, svc, fs') ∧
     code_nav_get_index_metadata fs' root = Ok None) ∧
  (∀ e, r = Err e → fs' = fs).
Proof.
  intros Hpath. unfold code_nav_delete_index, code_nav_load_index, code_nav_get_index_metadata.
  rewrite Hpath. destruct (fs !! path) eqn:Hf.
  - destruct (remove_file_error path); intros [= <- <-]; split; try done.
    intros _. rewrite lookup_delete_eq. done.
  - intros [= <- <-]. split; [|done]. intros _.
    rewrite (delete_id fs path) by done. rewrite Hf. done.
Qed.

End ExtraPersistence.

(** ** Text search *)

Section ExtraRipgrepLemmas.
Context `{SE : SearchEnv}.

Lemma search_in_file_fast_some q p m r :
  search_in_file_fast q p m = Some r →
  result_file_path r = p ∧ matches r ≠ [] ∧ length (matches r) ≤ m.
Proof.
  unfold search_in_file_fast. destruct (search_path q p) as [lines err].
  destruct (bool_decide (m < length lines)) eqn:Hm.
  - apply bool_decide_eq_true in Hm.
    destruct (map _ (take m lines)) as [|x xs] eqn:Hmap; [done|].
    intros [= <-]. simpl. split_and!; [done|done|].
    apply (f_equal length) in Hmap. rewrite length_map, length_take in Hmap. simpl in *. lia.
  - apply bool_decide_eq_false in Hm.
    destruct err; [done|].
    destruct (map _ lines) as [|x xs] eqn:Hmap; [done|].
    intros [= <-]. simpl. split_and!; [done|done|].
    apply (f_equal length) in Hmap. rewrite length_map in Hmap. simpl in *. lia.
Qed.

Lemma collect_results_acc rs q (order : list string) (acc : list SearchResult) :
  length acc ≤ max_results rs →
  foldl (λ results p,
           if bool_decide (max_results rs ≤ length results) then results
           else match search_in_file_fast q p (max_matches_per_file rs) with
                | Some result =>
                    if negb (bool_decide (matches result = []))
                       && bool_decide (length results < max_results rs)
                    then results ++ [result] else results
                | None => results
                end) acc order =
  take (max_results rs) (acc ++ omap (λ p, search_in_file_fast q p (max_matches_per_file rs)) order).
Proof.
  revert acc. induction order as [|p order IH]; intros acc Hacc; simpl.
  - rewrite app_nil_r, take_ge; [done|lia].
  - destruct (bool_decide (max_results rs ≤ length acc)) eqn:Hle.
    + apply bool_decide_eq_true in Hle.
      assert (Heq : length acc = max_results rs) by lia.
      rewrite IH by lia. rewrite <- Heq, !take_app_length. done.
    + apply bool_decide_eq_false in Hle.
      destruct (search_in_file_fast q p (max_matches_per_file rs)) as [r|] eqn:Hr.
      * pose proof (search_in_file_fast_some _ _ _ _ Hr) as (_ & Hne & _).
        rewrite bool_decide_eq_false_2 by done.
        rewrite bool_decide_eq_true_2 by lia. simpl.
        rewrite IH by (rewrite length_app; simpl; lia).
        by rewrite <- app_assoc.
      * by apply IH.
Qed.

(** The results are the first [max_results] per-file results, in the order
    the files are processed. *)
Lemma collect_results_take rs q order :
  collect_results rs q order =
  take (max_results rs) (omap (λ p, search_in_file_fast q p (max_matches_per_file rs)) order).
Proof. unfold collect_results. rewrite collect_results_acc; simpl; [done|lia]. Qed.

Lemma omap_Permutation {A B} (f : A → option B) (l k : list A) :
  l ≡ₚ k → omap f l ≡ₚ omap f k.
Proof.
  induction 1 as [|x l k _ IH|x y l|l m k _ IH1 _ IH2]; simpl.
  - done.
  - destruct (f x); [by constructor|done].
  - destruct (f x), (f y); try done; by constructor.
  - by etrans.
Qed.

Lemma search_outcome_ok rs q root results :
  search_content_outcome rs q root (Ok results) →
  (q = "" ∧ results = []) ∨
  (q ≠ "" ∧ regex_error q = None ∧
   ∃ order, order ≡ₚ filter (λ p, is_valid_file rs p = true) (walk_files root (exclude_dirs rs)) ∧
            results = take (max_results rs)
                        (omap (λ p, search_in_file_fast q p (max_matches_per_file rs)) order)).
Proof.
  inversion 1; subst.
  - by left.
  - right. split_and!; [done|done|]. eexists. split; [done|]. apply collect_results_take.
Qed.

End ExtraRipgrepLemmas.

Section ExtraRipgrepClaims.
Context `{SE : SearchEnv}.

(** The results are the first [max_results] non-empty per-file results in
    the order the searched files finish: the files searched are exactly the
    valid files the walk yields, each once. *)
Theorem search_content_first_results (rs : RipgrepSearch) (query root : string)
    (results : list SearchResult) :
  query ≠ "" →
  search_content_outcome rs query root (Ok results) →
  ∃ order, order ≡ₚ filter (λ p, is_valid_file rs p = true) (walk_files root (exclude_dirs rs)) ∧
    results = take (max_results rs)
                (omap (λ p, search_in_file_fast query p (max_matches_per_file rs)) order).
Proof.
  intros Hq Ho. apply search_outcome_ok in Ho as [[? _]|(_ & _ & Ho)]; [done|exact Ho].
Qed.

(** Every successful search returns at most [max_results] results, each
    with at least one and at most [max_matches_per_file] matches, for a
    file the walk yields and the file filter accepts. *)
Theorem search_content_bounds (rs : RipgrepSearch) (query root : string)
    (results : list SearchResult) :
  search_content_outcome rs query root (Ok results) →
  length results ≤ max_results rs ∧
  Forall (λ r, matches r ≠ [] ∧ length (matches r) ≤ max_matches_per_file rs ∧
               is_valid_file rs (result_file_path r) = true ∧
               result_file_path r ∈ walk_files root (exclude_dirs rs)) results.
Proof.
  intros Ho. apply search_outcome_ok in Ho as [[_ ->]|(_ & _ & order & Hperm & ->)];
    [split; [simpl; lia|constructor]|].
  split; [rewrite length_take; lia|].
  apply Forall_forall. intros r Hr. apply elem_of_take in Hr as (i & Hi & _).
  apply list_elem_of_lookup_2 in Hi.
  apply list_elem_of_omap in Hi as (p & Hp & Hr).
  apply search_in_file_fast_some in Hr as (<- & Hne & Hlen).
  rewrite Hperm, list_elem_of_filter in Hp. destruct Hp as [Hv Hw]. done.
Qed.

(** When at most [max_results] valid files have a match, the search returns
    the result of every one of them (in some order); otherwise it returns
    exactly [max_results] results. *)
Theorem search_content_cap (rs : RipgrepSearch) (query root : string)
    (results : list SearchResult) :
  query ≠ "" →
  search_content_outcome rs query root (Ok results) →
  let hits := omap (λ p, search_in_file_fast query p (max_matches_per_file rs))
                   (filter (λ p, is_valid_file rs p = true) (walk_files root (exclude_dirs rs))) in
  length results = min (max_results rs) (length hits) ∧
  (length hits ≤ max_results rs → results ≡ₚ hits).
Proof.
  intros Hq Ho hits. subst hits. apply search_outcome_ok in Ho as [[? _]|(_ & _ & order & Hperm & ->)]; [done|].
  pose proof (omap_Permutation (λ p, search_in_file_fast query p (max_matches_per_file rs))
                _ _ Hperm) as Hh.
  split.
  - rewrite length_take, (Permutation_length Hh). lia.
  - intros Hle. rewrite take_ge; [exact Hh|]. rewrite (Permutation_length Hh). exact Hle.
Qed.

(** A file yields a result exactly when the match limit is positive, it
    has a matching line, and its search either ends without error or
    reaches more than [max_matches] matching lines: an error discards the
    matches found unless the limit stopped the search first. *)
Theorem search_in_file_fast_some_iff (query path : string) (max_matches : nat)
    (lines : list (N * string)) (err : bool) :
  search_path query path = (lines, err) →
  is_Some (search_in_file_fast query path max_matches) ↔
  0 < max_matches ∧ lines ≠ [] ∧ (err = false ∨ max_matches < length lines).
Proof.
  intros Hs. unfold search_in_file_fast. rewrite Hs.
  destruct (bool_decide (max_matches < length lines)) eqn:Hm.
  - apply bool_decide_eq_true in Hm.
    destruct (map _ (take max_matches lines)) as [|x xs] eqn:Hmap.
    + split; [by intros []|]. intros (Hpos & _ & _).
      apply (f_equal length) in Hmap. rewrite length_map, length_take in Hmap. simpl in Hmap. lia.
    + split; [|by eexists]. intros _. split_and!; [|intros ->; simpl in Hm; lia|by right].
      apply (f_equal length) in Hmap. rewrite length_map, length_take in Hmap. simpl in Hmap. lia.
  - apply bool_decide_eq_false in Hm. destruct err.
    + split; [by intros []|]. intros (_ & _ & [?|?]); [done|lia].
    + destruct lines as [|l ls]; simpl.
      * split; [by intros []|]. by intros (_ & ? & _).
      * split; [|by eexists]. intros _. simpl in Hm. split_and!; [lia|done|by left].
Qed.

End ExtraRipgrepClaims.

(** ** Reference validation on one line *)

Section ExtraValidatorLemmas.

Lemma list_ascii_length (s : string) : length (String.list_ascii_of_string s) = String.length s.
Proof. induction s as [|c s IH]; simpl; [done|]. by rewrite IH. Qed.

Lemma list_ascii_lookup (s : string) (j : nat) : String.list_ascii_of_string s !! j = String.get j s.
Proof. revert j. induction s as [|c s IH]; intros [|j]; simpl; auto. Qed.

Lemma substring_length (n m : nat) (s : string) :
  n + m ≤ String.length s → String.length (String.substring n m s) = m.
Proof.
  revert n m. induction s as [|c s IH]; intros n m Hle; simpl in *.
  - assert (n = 0) as -> by lia. assert (m = 0) as -> by lia. done.
  - destruct n as [|n], m as [|m]; simpl; try done.
    + rewrite IH; [done|lia].
    + apply IH. lia.
    + apply IH. lia.
Qed.

Lemma substring_full (s : string) : String.substring 0 (String.length s) s = s.
Proof. induction s as [|c s IH]; simpl; [done|]. by rewrite IH. Qed.

Lemma substring_suffix (L m n : nat) (s : string) :
  L ≤ String.length s →
  String.substring m n (String.substring L (String.length s - L) s) = String.substring (L + m) n s.
Proof.
  revert L. induction s as [|c s IH]; intros L HL.
  - simpl in HL. assert (L = 0) as -> by lia. destruct m, n; reflexivity.
  - destruct L as [|L].
    + by rewrite Nat.sub_0_r, substring_full.
    + simpl in HL |- *. apply IH. lia.
Qed.

Lemma prefix_sound (pat s : string) :
  String.prefix pat s = true →
  String.substring 0 (String.length pat) s = pat ∧ String.length pat ≤ String.length s.
Proof.
  intros Hp. split; [by apply String.prefix_correct|].
  revert s Hp. induction pat as [|c pat IH]; intros s Hp; simpl; [lia|].
  destruct s as [|d s]; simpl in Hp; [done|].
  destruct (ascii_dec c d); [|done]. simpl. apply IH in Hp. lia.
Qed.

Lemma match_indices_fuel_sound (fuel : nat) (s pat : string) (k i : nat) :
  i ∈ match_indices_fuel fuel s pat k →
  k ≤ i ∧ i - k + String.length pat ≤ String.length s ∧
  String.substring (i - k) (String.length pat) s = pat.
Proof.
  revert s k. induction fuel as [|fuel IH]; intros s k Hi; simpl in Hi;
    [by apply not_elem_of_nil in Hi|].
  (* one step to the right, used by the empty pattern and on a mismatch *)
  assert (Hshift : ∀ c r, i ∈ match_indices_fuel fuel r pat (S k) →
            k ≤ i ∧ i - k + String.length pat ≤ String.length (String c r) ∧
            String.substring (i - k) (String.length pat) (String c r) = pat).
  { intros c r Hr. apply IH in Hr as (Hk & Hl & Hs).
    replace (i - k) with (S (i - S k)) by lia. simpl. split_and!; [lia|lia|done]. }
  destruct (String.prefix pat s) eqn:Hp.
  - pose proof (prefix_sound _ _ Hp) as [Hpre Hlen].
    destruct pat as [|c0 pat0].
    + apply elem_of_cons in Hi as [->|Hi].
      * rewrite Nat.sub_diag. simpl. split_and!; [lia|lia|by destruct s].
      * destruct s as [|c r]; [by apply not_elem_of_nil in Hi|]. by apply Hshift.
    + apply elem_of_cons in Hi as [->|Hi].
      * rewrite Nat.sub_diag. split_and!; [lia|lia|done].
      * apply IH in Hi as (Hk & Hl & Hs).
        rewrite substring_length in Hl by lia.
        rewrite substring_suffix in Hs by lia.
        replace (String.length (String c0 pat0) + (i - (k + String.length (String c0 pat0))))
          with (i - k) in Hs by lia.
        split_and!; [lia|lia|done].
  - destruct s as [|c r]; [by apply not_elem_of_nil in Hi|]. by apply Hshift.
Qed.

(** Every index [str::match_indices] reports is an occurrence of the pattern. *)
Lemma match_indices_sound (s pat : string) (i : nat) :
  i ∈ match_indices s pat →
  i + String.length pat ≤ String.length s ∧ String.substring i (String.length pat) s = pat.
Proof.
  intros Hi. apply match_indices_fuel_sound in Hi as (_ & Hl & Hs).
  rewrite Nat.sub_0_r in Hl, Hs. done.
Qed.

Lemma is_valid_reference_node_true root p sym source lang_id :
  is_valid_reference_node root p sym source lang_id = true →
  ∃ node, node_at root p = Some node ∧ utf8_text node source = sym ∧
    node_kind node ∈ valid_kinds lang_id ∧
    Forall (λ k, is_string_kind k = false ∧ is_comment_kind k = false) (ancestor_kinds root p).
Proof.
  unfold is_valid_reference_node. destruct (node_at root p) as [node|]; [|done].
  destruct (String.eqb (utf8_text node source) sym) eqn:E1; simpl; [|done].
  destruct (existsb (String.eqb (node_kind node)) (valid_kinds lang_id)) eqn:E2; simpl; [|done].
  destruct (existsb _ (ancestor_kinds root p)) eqn:E3; [done|]. intros _.
  exists node. split_and!; [done|by apply String.eqb_eq| |].
  - apply existsb_exists in E2 as (k & Hk & Hkk). apply String.eqb_eq in Hkk as ->.
    by apply list_elem_of_In.
  - apply Forall_forall. intros k Hk. apply orb_false_iff.
    destruct (is_string_kind k || is_comment_kind k) eqn:Ek; [|done].
    enough (existsb (λ k, is_string_kind k || is_comment_kind k) (ancestor_kinds root p) = true)
      by congruence.
    apply existsb_exists. exists k. split; [by apply list_elem_of_In|done].
Qed.

Lemma count_newlines_cons (b : ascii) (l : list ascii) :
  count_newlines (b :: l) = (if is_newline b then 1 else 0) + count_newlines l.
Proof. unfold count_newlines. rewrite filter_cons. by destruct (is_newline b). Qed.

Lemma find_line_start_past_end (bytes : list ascii) (i cl idx : N) :
  (cl + N.of_nat (count_newlines (removelast bytes)) < idx)%N →
  find_line_start bytes i cl idx = 0%N.
Proof.
  revert i cl. induction bytes as [|b rest IH]; intros i cl Hlt; simpl; [done|].
  rewrite (proj2 (N.eqb_neq cl idx)) by lia.
  destruct rest as [|b' rest']; [done|]. apply IH.
  change (removelast (b :: b' :: rest')) with (b :: removelast (b' :: rest')) in Hlt.
  rewrite count_newlines_cons in Hlt.
  destruct (is_newline b); lia.
Qed.

End ExtraValidatorLemmas.

Section ExtraValidatorClaims.

(** Every reference the validator returns for a line is a whole-word
    occurrence of the symbol in the text of that line: the symbol's bytes
    sit at column [col] of the line, the byte before it (if any) and the byte
    after it (if any) are neither ASCII alphanumeric nor ['_'], the node
    found at that point has exactly the symbol's text, an identifier kind
    of the language and no string or comment ancestor, and the columns
    reported are [col + 1] and [col + 1 + len]. *)
Theorem validate_reference_sound (root : Node) (source : string) (line_number : N)
    (symbol_name lang_id file_path0 lang_family0 : string) :
  Forall (λ r, ∃ col,
      let line := line_content_of source line_number in
      let len := String.length symbol_name in
      let point := mkPoint (line_number - 1) (N.of_nat col) in
      col + len ≤ String.length line ∧
      String.substring col len line = symbol_name ∧
      (col = 0 ∨ ∃ b, String.get (col - 1) line = Some b ∧ is_word_byte b = false) ∧
      (col + len = String.length line ∨
         ∃ b, String.get (col + len) line = Some b ∧ is_word_byte b = false) ∧
      (∃ node, node_at root (descendant_for_point_range root point point) = Some node ∧
         utf8_text node source = symbol_name ∧ node_kind node ∈ valid_kinds lang_id ∧
         Forall (λ k, is_string_kind k = false ∧ is_comment_kind k = false)
                (ancestor_kinds root (descendant_for_point_range root point point))) ∧
      start_column r = as_u32 (N.of_nat col + 1) ∧
      end_column r = as_u32 (N.of_nat (col + 1 + len)))
    (validate_reference_at_line root source line_number symbol_name lang_id file_path0 lang_family0).
Proof.
  apply Forall_forall. intros r Hr. unfold validate_reference_at_line in Hr. cbv zeta in Hr.
  set (line := String.substring _ _ source) in Hr.
  assert (Hline : line = line_content_of source line_number) by reflexivity.
  apply list_elem_of_omap in Hr as (col & Hcol & Hr).
  apply match_indices_sound in Hcol as [Hbound Hsub].
  rewrite list_ascii_length in Hr.
  destruct (bool_decide (col = 0) || _) eqn:Hbefore; [|done].
  destruct (bool_decide (String.length line ≤ _) || _) eqn:Hafter; [|done].
  simpl in Hr.
  destruct (is_valid_reference_node _ _ _ _ _) eqn:Hvalid; [|done].
  injection Hr as <-. exists col. rewrite <- Hline. simpl.
  split_and!; [done|done| | |by apply is_valid_reference_node_true|done|done].
  - destruct (decide (col = 0)) as [->|Hc0]; [by left|right].
    rewrite bool_decide_eq_false_2 in Hbefore by done. simpl in Hbefore.
    rewrite list_ascii_lookup in Hbefore.
    destruct (String.get (col - 1) line) as [b|] eqn:Hg.
    + exists b. split; [done|]. by apply negb_true_iff.
    + exfalso. assert (Hlt : col - 1 < String.length line) by lia.
      rewrite <- (list_ascii_length line) in Hlt. apply lookup_lt_is_Some_2 in Hlt.
      rewrite list_ascii_lookup, Hg in Hlt. by destruct Hlt.
  - destruct (decide (col + String.length symbol_name = String.length line)) as [He|Hne];
      [by left|right].
    rewrite bool_decide_eq_false_2 in Hafter by lia. simpl in Hafter.
    rewrite list_ascii_lookup in Hafter.
    destruct (String.get (col + String.length symbol_name) line) as [b|] eqn:Hg.
    + exists b. split; [done|]. by apply negb_true_iff.
    + exfalso. assert (Hlt : col + String.length symbol_name < String.length line) by lia.
      rewrite <- (list_ascii_length line) in Hlt. apply lookup_lt_is_Some_2 in Hlt.
      rewrite list_ascii_lookup, Hg in Hlt. by destruct Hlt.
Qed.

(** When the line number lies past the last line the scan can find (the
    source has fewer newlines before its final byte than the line index),
    the line examined is the first line of the source: the search for the
    line start falls back to offset 0. *)
Theorem line_past_end_reads_first_line (source : string) (line_number : N) :
  count_newlines (removelast (String.list_ascii_of_string source)) < N.to_nat (line_number - 1) →
  line_content_of source line_number = line_content_of source 1.
Proof.
  intros Hlt. unfold line_content_of. cbv zeta.
  rewrite find_line_start_past_end by lia.
  replace (find_line_start (String.list_ascii_of_string source) 0 0 (1 - 1)) with 0%N; [done|].
  by destruct (String.list_ascii_of_string source).
Qed.

End ExtraValidatorClaims.

(** ** Instances of the hypotheses above *)

Module ExtraWitnesses.
Import Toy.
#[local] Existing Instance toy_ts.
#[local] Existing Instance toy_host.
#[local] Existing Instance toy_search.
#[local] Existing Instance toy_remove.

Lemma lang_id_from_last_extension_witness :
  Forall (λ c, c ≠ "."%char) (String.list_ascii_of_string "RS") ∧
  get_lang_id_from_path ("src/main" ++ String "." "RS") = get_lang_id_from_path (to_lowercase "RS") ∧
  get_lang_id_from_path "RS" = get_lang_id_from_path (to_lowercase "RS").
Proof.
  assert (Hd : Forall (λ c, c ≠ "."%char) (String.list_ascii_of_string "RS"))
    by (repeat constructor; discriminate).
  split; [exact Hd|]. exact (lang_id_from_last_extension "src/main" "RS" Hd).
Defined.

(** The toy host hashes every root to the same file, so the metadata asked
    for another root reports the saved one. *)
Lemma save_then_metadata_witness :
  (∀ p j, json_to_string p = Some j → json_from_str j = Some p) ∧
  code_nav_save_index toy_service ∅ "/proj" ∅ 0 =
    (Ok (), (code_nav_save_index toy_service ∅ "/proj" ∅ 0).2) ∧
  get_index_path "/other" = get_index_path "/proj" ∧
  code_nav_get_index_metadata (code_nav_save_index toy_service ∅ "/proj" ∅ 0).2 "/other" =
    Ok (Some (mkIndexMetadata INDEX_VERSION "/proj" 0
                (size (file_definitions (index toy_service)))
                (definition_total (definitions (index toy_service)))
                ∅)).
Proof.
  assert (Hrt : ∀ p j, json_to_string p = Some j → json_from_str j = Some p).
  { intros p j Hj. simpl in *. congruence. }
  assert (Hs : code_nav_save_index toy_service ∅ "/proj" ∅ 0 =
                 (Ok (), (code_nav_save_index toy_service ∅ "/proj" ∅ 0).2)) by reflexivity.
  assert (Hp : get_index_path "/other" = get_index_path "/proj") by reflexivity.
  split_and!; [exact Hrt|exact Hs|exact Hp|].
  exact (save_then_metadata toy_service ∅ _ "/proj" "/other" ∅ 0 Hrt Hs Hp).
Defined.

Lemma delete_then_absent_witness :
  get_index_path "/proj" = Some toy_index_path ∧
  code_nav_delete_index stale_fs "/proj" = (Ok (), ∅) ∧
  (@Ok unit string () = Ok () → ∅ = delete toy_index_path stale_fs ∧
     code_nav_load_index toy_service ∅ "/proj" = (Ok false, toy_service, ∅) ∧
     code_nav_get_index_metadata ∅ "/proj" = Ok None) ∧
  (∀ e, @Ok unit string () = Err e → (∅ : gmap string PersistedIndex) = stale_fs).
Proof.
  assert (Hp : get_index_path "/proj" = Some toy_index_path) by reflexivity.
  assert (Hd : code_nav_delete_index stale_fs "/proj" = (Ok (), ∅)) by reflexivity.
  split_and!; [exact Hp|exact Hd|..].
  all: pose proof (delete_then_absent toy_service stale_fs ∅ "/proj" _ _ Hp Hd) as [H1 H2].
  - exact H1.
  - exact H2.
Defined.

(** With at most one match per file the two matching lines of [src/main.rs]
    reach the limit, so the read error after them does not discard them. *)
Lemma search_content_first_results_witness :
  let rs := with_max_matches_per_file RipgrepSearch_default 1 in
  "main" ≠ "" ∧
  search_content_outcome rs "main" "/proj" (Ok (collect_results rs "main" ["src/main.rs"])) ∧
  ∃ order, order ≡ₚ filter (λ p, is_valid_file rs p = true) (walk_files "/proj" (exclude_dirs rs)) ∧
    collect_results rs "main" ["src/main.rs"] =
      take (max_results rs) (omap (λ p, search_in_file_fast "main" p (max_matches_per_file rs)) order).
Proof.
  intros rs. assert (Hq : "main" ≠ "") by discriminate.
  assert (Ho : search_content_outcome rs "main" "/proj" (Ok (collect_results rs "main" ["src/main.rs"]))).
  { apply search_done; [exact Hq|reflexivity|]. vm_compute. reflexivity. }
  split_and!; [exact Hq|exact Ho|]. exact (search_content_first_results _ _ _ _ Hq Ho).
Defined.

Lemma search_content_bounds_witness :
  let rs := with_max_matches_per_file RipgrepSearch_default 1 in
  search_content_outcome rs "main" "/proj" (Ok (collect_results rs "main" ["src/main.rs"])) ∧
  length (collect_results rs "main" ["src/main.rs"]) ≤ max_results rs ∧
  Forall (λ r, matches r ≠ [] ∧ length (matches r) ≤ max_matches_per_file rs ∧
               is_valid_file rs (result_file_path r) = true ∧
               result_file_path r ∈ walk_files "/proj" (exclude_dirs rs))
    (collect_results rs "main" ["src/main.rs"]).
Proof.
  intros rs.
  assert (Ho : search_content_outcome rs "main" "/proj" (Ok (collect_results rs "main" ["src/main.rs"]))).
  { apply search_done; [discriminate|reflexivity|]. vm_compute. reflexivity. }
  split; [exact Ho|]. exact (search_content_bounds _ _ _ _ Ho).
Defined.

Lemma search_content_cap_witness :
  let rs := with_max_matches_per_file RipgrepSearch_default 1 in
  "main" ≠ "" ∧
  search_content_outcome rs "main" "/proj" (Ok (collect_results rs "main" ["src/main.rs"])) ∧
  let hits := omap (λ p, search_in_file_fast "main" p (max_matches_per_file rs))
                   (filter (λ p, is_valid_file rs p = true) (walk_files "/proj" (exclude_dirs rs))) in
  length (collect_results rs "main" ["src/main.rs"]) = min (max_results rs) (length hits) ∧
  (length hits ≤ max_results rs → collect_results rs "main" ["src/main.rs"] ≡ₚ hits).
Proof.
  intros rs. assert (Hq : "main" ≠ "") by discriminate.
  assert (Ho : search_content_outcome rs "main" "/proj" (Ok (collect_results rs "main" ["src/main.rs"]))).
  { apply search_done; [exact Hq|reflexivity|]. vm_compute. reflexivity. }
  split_and!; [exact Hq|exact Ho|]. exact (search_content_cap _ _ _ _ Hq Ho).
Defined.

Lemma search_in_file_fast_some_iff_witness :
  search_path "main" "src/main.rs" = ([(1%N, "fn main() {}"); (3%N, "  main();")], true) ∧
  (is_Some (search_in_file_fast "main" "src/main.rs" 1) ↔
   0 < 1 ∧ [(1%N, "fn main() {}"); (3%N, "  main();")] ≠ [] ∧
   (true = false ∨ 1 < length [(1%N, "fn main() {}"); (3%N, "  main();")])).
Proof.
  assert (Hs : search_path "main" "src/main.rs" = ([(1%N, "fn main() {}"); (3%N, "  main();")], true))
    by reflexivity.
  split; [exact Hs|]. exact (search_in_file_fast_some_iff _ _ 1 _ _ Hs).
Defined.

(** Line 5 of a two-line source is read as line 1. *)
Lemma line_past_end_reads_first_line_witness :
  count_newlines (removelast (String.list_ascii_of_string toy_source)) < N.to_nat (5 - 1) ∧
  line_content_of toy_source 5 = line_content_of toy_source 1.
Proof.
  assert (Hlt : count_newlines (removelast (String.list_ascii_of_string toy_source)) < N.to_nat (5 - 1))
    by (vm_compute; lia).
  split; [exact Hlt|]. exact (line_past_end_reads_first_line toy_source 5 Hlt).
Defined.

End ExtraWitnesses.

